(** * fp: find free ports -- a shallow embedding of [fp.c] and its properties

    The program asks the kernel for free ports, either by binding [count]
    sockets to port 0 and holding them all open while the assigned ports are
    read back ([find_free_ports]), or by try-binding the ports of a closed
    interval from a random starting offset ([find_free_ports_range]).

    The C functions are translated as state-passing functions over a [world]
    that holds the process's descriptor table, the answers of the kernel to
    the fallible system calls, the pseudo-random source, the two output
    streams and the trace of system calls issued so far. *)

From Stdlib Require Import ZArith Lia.
From stdpp Require Import gmap list strings.

Local Open Scope Z_scope.

(** ** Constants of the program and of the platform headers *)

Definition MAX_PORTS : Z := 1024.

Definition AF_INET : Z := 2.
Definition AF_INET6 : Z := 10.
Definition SOCK_STREAM : Z := 1.
Definition SOCK_DGRAM : Z := 2.
Definition INADDR_LOOPBACK : Z := 0x7f000001.
Definition RAND_MAX : Z := 2147483647.
Definition EBADF : Z := 9.

(** ** C integers: [int] and [unsigned] are 32 bits wide *)

Definition to_int (x : Z) : Z := (x + 2 ^ 31) mod 2 ^ 32 - 2 ^ 31.
Definition to_unsigned (x : Z) : Z := x mod 2 ^ 32.
Definition to_uint16 (x : Z) : Z := x mod 2 ^ 16.

(** Byte order conversions on a little-endian host: both swap the two bytes
    of a 16-bit value. *)
Definition bswap16 (x : Z) : Z :=
  Z.lor (Z.shiftl (Z.land x 255) 8) (Z.land (Z.shiftr x 8) 255).
Definition htons (x : Z) : Z := bswap16 (to_uint16 x).
Definition ntohs (x : Z) : Z := bswap16 (to_uint16 x).

(** What the proofs below check of [bswap16] on every 16-bit value. *)
Definition bswap16_check (y : Z) : bool :=
  (bswap16 (to_uint16 (bswap16 y)) =? y) && (0 <=? bswap16 y) && (bswap16 y <? 65536).

(** [f] holds of the [n] integers from [x] on. *)
Fixpoint holds_from (n : nat) (x : Z) (f : Z → bool) : bool :=
  match n with
  | O => true
  | S n' => f x && holds_from n' (x + 1) f
  end.

Definition htonl (x : Z) : Z :=
  Z.lor (Z.lor (Z.shiftl (Z.land x 255) 24)
               (Z.shiftl (Z.land (Z.shiftr x 8) 255) 16))
        (Z.lor (Z.shiftl (Z.land (Z.shiftr x 16) 255) 8)
               (Z.land (Z.shiftr x 24) 255)).

(** ** Socket addresses *)

(** [struct sockaddr_storage] as the program uses it: the family, the
    address, and the port in network byte order. *)
Record sockaddr_storage := SockAddr {
  ss_family : Z;
  ss_addr : Z;
  ss_port : Z
}.

(** [memset(sa, 0, sizeof( *sa))] *)
Definition sockaddr_zero : sockaddr_storage := SockAddr 0 0 0.

(** [in6addr_loopback] is [::1]. *)
Definition in6addr_loopback : Z := 1.

Definition sizeof_sockaddr_in : Z := 16.
Definition sizeof_sockaddr_in6 : Z := 28.
Definition sizeof_sockaddr_storage : Z := 128.

Definition setup_addr (family port : Z) : sockaddr_storage * Z :=
  if family =? AF_INET then
    (SockAddr AF_INET (htonl INADDR_LOOPBACK) (htons port), sizeof_sockaddr_in)
  else
    (SockAddr AF_INET6 in6addr_loopback (htons port), sizeof_sockaddr_in6).

(** Both [sin_port] and [sin6_port] live at the same offset; the model has one
    port field for the two branches of the source. *)
Definition read_port (sa : sockaddr_storage) (family : Z) : Z :=
  if family =? AF_INET then ntohs (ss_port sa) else ntohs (ss_port sa).

(** ** The process and its kernel *)

(** An open descriptor is a socket, with its local address, or anything
    else (the standard streams, a file). The local port is 0 until the socket
    is bound. *)
Inductive open_file :=
| OtherFile
| Socket (family type addr port : Z).

(** What the kernel answers to a fallible system call: an error number, or a
    grant. The grant of a [bind] to port 0 carries the port the ephemeral
    allocator picked. *)
Inductive answer :=
| Refuse (errno : Z)
| Grant (pick : Z).

(** System calls as they appear on the trace, with their results. *)
Inductive event :=
| EvSocket (family type : Z) (ret : Z)
| EvBind (fd : Z) (sa : sockaddr_storage) (assigned : option Z)
| EvGetsockname (fd : Z) (port : option Z)
| EvClose (fd : Z).

(** Lines written to the standard output and the standard error. *)
Inductive out_line :=
| Out_port (p : Z)
| Out_version
| Out_usage.

Inductive err_line :=
| Err_perror (what : string) (errno : Z)
| Err_count_bounds
| Err_bad_range
| Err_range_too_small (count size : Z)
| Err_no_free_port
| Err_usage
| Err_getopt.

Record world := World {
  kernel : nat → answer;       (* answer to the k-th fallible system call *)
  ticks : nat;                 (* fallible system calls made so far *)
  entropy : nat → Z;           (* what the k-th call of rand() draws *)
  draws : nat;                 (* calls of rand() so far *)
  errno : Z;
  files : gmap Z open_file;    (* the descriptor table *)
  trace : list event;          (* system calls so far, oldest first *)
  stdout : list out_line;
  stderr : list err_line
}.

Definition set_sys (w : world) (e : Z) (fs : gmap Z open_file) (ev : event) : world :=
  World (kernel w) (S (ticks w)) (entropy w) (draws w) e fs
        (trace w ++ [ev]) (stdout w) (stderr w).

Definition put_out (l : out_line) (w : world) : world :=
  World (kernel w) (ticks w) (entropy w) (draws w) (errno w) (files w)
        (trace w) (stdout w ++ [l]) (stderr w).

Definition put_err (l : err_line) (w : world) : world :=
  World (kernel w) (ticks w) (entropy w) (draws w) (errno w) (files w)
        (trace w) (stdout w) (stderr w ++ [l]).

(** POSIX hands out the lowest descriptor that is not open. *)
Fixpoint lowest_free_from (fs : gmap Z open_file) (n : nat) (k : Z) : Z :=
  match n with
  | O => k
  | S n' => match fs !! k with
            | Some _ => lowest_free_from fs n' (k + 1)
            | None => k
            end
  end.

Definition lowest_free (fs : gmap Z open_file) : Z :=
  lowest_free_from fs (size fs) 0.

(** [socket(family, type, 0)] *)
Definition sys_socket (family type : Z) (w : world) : Z * world :=
  match kernel w (ticks w) with
  | Grant _ =>
      let fd := lowest_free (files w) in
      (fd, set_sys w (errno w) (<[fd := Socket family type 0 0]> (files w))
                   (EvSocket family type fd))
  | Refuse e => (-1, set_sys w e (files w) (EvSocket family type (-1)))
  end.

(** [bind(fd, sa, salen)]: a request for port 0 is served by the ephemeral
    allocator, whose pick is a 16-bit port number. *)
Definition sys_bind (fd : Z) (sa : sockaddr_storage) (salen : Z) (w : world)
  : Z * world :=
  let requested := ntohs (ss_port sa) in
  match files w !! fd with
  | Some (Socket f t _ _) =>
      match kernel w (ticks w) with
      | Grant pick =>
          let port := if requested =? 0 then to_uint16 pick else requested in
          (0, set_sys w (errno w) (<[fd := Socket f t (ss_addr sa) port]> (files w))
                      (EvBind fd sa (Some port)))
      | Refuse e => (-1, set_sys w e (files w) (EvBind fd sa None))
      end
  | _ => (-1, set_sys w EBADF (files w) (EvBind fd sa None))
  end.

(** [getsockname(fd, sa, &salen)] *)
Definition sys_getsockname (fd : Z) (sa : sockaddr_storage) (w : world)
  : Z * sockaddr_storage * world :=
  match files w !! fd with
  | Some (Socket f t a p) =>
      match kernel w (ticks w) with
      | Grant _ =>
          (0, SockAddr f a (htons p),
           set_sys w (errno w) (files w) (EvGetsockname fd (Some p)))
      | Refuse e => (-1, sa, set_sys w e (files w) (EvGetsockname fd None))
      end
  | _ => (-1, sa, set_sys w EBADF (files w) (EvGetsockname fd None))
  end.

(** [close(fd)]; the program ignores its result. *)
Definition sys_close (fd : Z) (w : world) : world :=
  World (kernel w) (ticks w) (entropy w) (draws w) (errno w)
        (delete fd (files w)) (trace w ++ [EvClose fd]) (stdout w) (stderr w).

(** [rand()] *)
Definition rand (w : world) : Z * world :=
  (entropy w (draws w) mod (RAND_MAX + 1),
   World (kernel w) (ticks w) (entropy w) (S (draws w)) (errno w) (files w)
         (trace w) (stdout w) (stderr w)).

(** [perror(what)] *)
Definition perror (what : string) (w : world) : world :=
  put_err (Err_perror what (errno w)) w.

(** ** The program *)

(** Arrays ([int fds[MAX_PORTS]], [int ports[MAX_PORTS]]) are lists updated
    and read by index. A fresh automatic array has indeterminate content; the
    model fills it with zeros, and no cell is read before it is written. *)
Definition fresh_array : list Z := replicate (Z.to_nat MAX_PORTS) 0.

Definition array_get (a : list Z) (i : Z) : Z := a !!! Z.to_nat i.
Definition array_set (a : list Z) (i : Z) (v : Z) : list Z := <[Z.to_nat i := v]> a.

(** In the loops below the first argument counts the iterations that are
    left; each function is called with the trip count of its [for] loop. *)

(** First loop of [find_free_ports]: open and bind all sockets. The result is
    [Some i] for [goto fail] with that value of [i], and [None] when the loop
    runs to its end. *)
Fixpoint open_all (n : nat) (i count socktype family : Z) (fds : list Z)
    (w : world) : option Z * list Z * world :=
  match n with
  | O => (None, fds, w)
  | S n' =>
      if i <? count then
        let '(fd, w1) := sys_socket family socktype w in
        let fds1 := array_set fds i fd in
        if array_get fds1 i <? 0 then
          (Some i, fds1, perror "fp: socket" w1)
        else
          let '(sa, salen) := setup_addr family 0 in
          let '(rc, w2) := sys_bind (array_get fds1 i) sa salen w1 in
          if rc <? 0 then
            (Some (i + 1), fds1, perror "fp: bind" w2)
          else open_all n' (i + 1) count socktype family fds1 w2
      else (None, fds, w)
  end.

(** Second loop: read the assigned ports. [false] is [goto fail_all]. *)
Fixpoint read_all (n : nat) (i count family : Z) (fds ports : list Z)
    (w : world) : bool * list Z * world :=
  match n with
  | O => (true, ports, w)
  | S n' =>
      if i <? count then
        let '(rc, sa, w1) := sys_getsockname (array_get fds i) sockaddr_zero w in
        if rc <? 0 then
          (false, ports, perror "fp: getsockname" w1)
        else
          read_all n' (i + 1) count family fds
                   (array_set ports i (read_port sa family)) w1
      else (true, ports, w)
  end.

(** The closing loops: [for (j = 0; j < i; j++) close(fds[j]);] *)
Fixpoint close_all (n : nat) (j i : Z) (fds : list Z) (w : world) : world :=
  match n with
  | O => w
  | S n' =>
      if j <? i then close_all n' (j + 1) i fds (sys_close (array_get fds j) w)
      else w
  end.

Definition find_free_ports (ports : list Z) (count socktype family : Z)
    (w : world) : Z * list Z * world :=
  let fds := fresh_array in
  match open_all (Z.to_nat count) 0 count socktype family fds w with
  | (Some i, fds1, w1) =>
      (-1, ports, close_all (Z.to_nat i) 0 i fds1 w1)
  | (None, fds1, w1) =>
      match read_all (Z.to_nat count) 0 count family fds1 ports w1 with
      | (false, ports1, w2) =>
          (-1, ports1, close_all (Z.to_nat count) 0 count fds1 w2)
      | (true, ports1, w2) =>
          (0, ports1, close_all (Z.to_nat count) 0 count fds1 w2)
      end
  end.

(** The candidate of iteration [i]: [lo + ((start - lo + i) % range)], in
    [int] arithmetic, [%] truncating towards zero. *)
Definition candidate (lo range start i : Z) : Z :=
  to_int (lo + Z.rem (to_int (to_int (start - lo) + i)) range).

(** The loop of [find_free_ports_range]. The first component of the result is
    [Some rc] when the loop is left by [return rc]. *)
Fixpoint scan (n : nat) (i found count lo range start socktype family : Z)
    (ports : list Z) (w : world) : option Z * Z * list Z * world :=
  match n with
  | O => (None, found, ports, w)
  | S n' =>
      if (i <? range) && (found <? count) then
        let port := candidate lo range start i in
        let '(fd, w1) := sys_socket family socktype w in
        if fd <? 0 then (Some (-1), found, ports, w1)
        else
          let '(sa, salen) := setup_addr family port in
          let '(rc, w2) := sys_bind fd sa salen w1 in
          let '(found1, ports1) :=
            if rc =? 0 then (found + 1, array_set ports found port)
            else (found, ports) in
          scan n' (i + 1) found1 count lo range start socktype family ports1
               (sys_close fd w2)
      else (None, found, ports, w)
  end.

(** [(unsigned)rand() % range] divides by zero when [hi - lo + 1] is 0, which
    C leaves undefined; the function is meant for [lo <= hi], as [main] calls
    it, and is used below for such intervals only. *)
Definition find_free_ports_range (ports : list Z) (count lo hi socktype family : Z)
    (w : world) : Z * list Z * world :=
  let range := to_int (to_int (hi - lo) + 1) in
  let '(r, w0) := rand w in
  let start := to_int (to_unsigned (to_unsigned lo
                         + to_unsigned r mod to_unsigned range)) in
  match scan (Z.to_nat range) 0 0 count lo range start socktype family ports w0 with
  | (Some rc, _, ports1, w1) => (rc, ports1, w1)
  | (None, found, ports1, w1) => ((if found =? count then 0 else -1), ports1, w1)
  end.

(** *** [main] *)

(** What [getopt] returns for one option of the command line, with the
    argument already converted: [atoi(optarg)] for [-n], and for [-r] what
    [sscanf(optarg, "%d:%d", ...)] converted. [Opt_other] is the ['?'] that
    [getopt] returns for an option it does not know or that lacks its
    argument; [getopt] has then written its own diagnostic, [Err_getopt], to
    the standard error (the program leaves [opterr] set). *)
Inductive scanned :=
| Scan0
| Scan1 (lo : Z)
| Scan2 (lo hi : Z).

Inductive option_arg :=
| Opt_n (atoi_optarg : Z)
| Opt_r (s : scanned)
| Opt_u
| Opt_6
| Opt_v
| Opt_h
| Opt_other.

(** The locals of [main] that the option loop sets. *)
Record config := Config {
  cfg_count : Z;
  cfg_socktype : Z;
  cfg_family : Z;
  cfg_range_lo : Z;
  cfg_range_hi : Z;
  cfg_use_range : Z
}.

Definition initial_config : config := Config 1 SOCK_STREAM AF_INET 0 0 0.

(** The [while ((opt = getopt(...)) != -1)] loop: [inl] is a [return] from
    inside the loop, [inr] the locals when the options are exhausted. *)
Fixpoint getopt_loop (opts : list option_arg) (c : config) (w : world)
  : (Z * world) + (config * world) :=
  match opts with
  | [] => inr (c, w)
  | o :: rest =>
      match o with
      | Opt_n count =>
          if (count <? 1) || (count >? MAX_PORTS) then
            inl (1, put_err Err_count_bounds w)
          else
            getopt_loop rest
              (Config count (cfg_socktype c) (cfg_family c)
                      (cfg_range_lo c) (cfg_range_hi c) (cfg_use_range c)) w
      | Opt_r (Scan2 range_lo range_hi) =>
          if (range_lo <? 1) || (range_hi >? 65535) || (range_lo >? range_hi) then
            inl (1, put_err Err_bad_range w)
          else
            getopt_loop rest
              (Config (cfg_count c) (cfg_socktype c) (cfg_family c)
                      range_lo range_hi 1) w
      | Opt_r _ => inl (1, put_err Err_bad_range w)
      | Opt_u =>
          getopt_loop rest
            (Config (cfg_count c) SOCK_DGRAM (cfg_family c)
                    (cfg_range_lo c) (cfg_range_hi c) (cfg_use_range c)) w
      | Opt_6 =>
          getopt_loop rest
            (Config (cfg_count c) (cfg_socktype c) AF_INET6
                    (cfg_range_lo c) (cfg_range_hi c) (cfg_use_range c)) w
      | Opt_v => inl (0, put_out Out_version w)
      | Opt_h => inl (0, put_out Out_usage w)
      | Opt_other => inl (1, put_err Err_usage (put_err Err_getopt w))
      end
  end.

(** [for (i = 0; i < count; i++) printf("%d\n", ports[i]);] *)
Fixpoint print_ports (n : nat) (i count : Z) (ports : list Z) (w : world) : world :=
  match n with
  | O => w
  | S n' =>
      if i <? count then
        print_ports n' (i + 1) count ports (put_out (Out_port (array_get ports i)) w)
      else w
  end.

(** [srand] only chooses which pseudo-random sequence [rand] draws from; the
    [entropy] of the world stands for that sequence. *)
Definition main (opts : list option_arg) (w : world) : Z * world :=
  match getopt_loop opts initial_config w with
  | inl r => r
  | inr (c, w1) =>
      let size := to_int (to_int (cfg_range_hi c - cfg_range_lo c) + 1) in
      if negb (cfg_use_range c =? 0) && (cfg_count c >? size) then
        (1, put_err (Err_range_too_small (cfg_count c) size) w1)
      else
        let ports := fresh_array in
        let '(rc, ports1, w2) :=
          if negb (cfg_use_range c =? 0) then
            find_free_ports_range ports (cfg_count c) (cfg_range_lo c)
                                  (cfg_range_hi c) (cfg_socktype c) (cfg_family c) w1
          else
            find_free_ports ports (cfg_count c) (cfg_socktype c) (cfg_family c) w1 in
        if rc <? 0 then (1, put_err Err_no_free_port w2)
        else (0, print_ports (Z.to_nat (cfg_count c)) 0 (cfg_count c) ports1 w2)
  end.


(** ** Reading a trace *)

(** The system calls made between two worlds of one run. *)
Definition events_since (w w' : world) : list event :=
  drop (length (trace w)) (trace w').

(** The ports the [bind] calls asked for, in order. *)
Fixpoint probed (evs : list event) : list Z :=
  match evs with
  | [] => []
  | EvBind _ sa _ :: r => ntohs (ss_port sa) :: probed r
  | _ :: r => probed r
  end.

(** The local ports of the [bind] calls that succeeded, in order. *)
Fixpoint bound_ports (evs : list event) : list Z :=
  match evs with
  | [] => []
  | EvBind _ _ (Some p) :: r => p :: bound_ports r
  | _ :: r => bound_ports r
  end.

(** The number of [socket] calls. *)
Fixpoint socket_calls (evs : list event) : nat :=
  match evs with
  | [] => O
  | EvSocket _ _ _ :: r => S (socket_calls r)
  | _ :: r => socket_calls r
  end.

(** The descriptor table after an event. *)
Definition replay_event (fs : gmap Z open_file) (e : event) : gmap Z open_file :=
  match e with
  | EvSocket f t fd => if fd <? 0 then fs else <[fd := Socket f t 0 0]> fs
  | EvBind fd sa (Some p) =>
      match fs !! fd with
      | Some (Socket f t _ _) => <[fd := Socket f t (ss_addr sa) p]> fs
      | _ => fs
      end
  | EvClose fd => delete fd fs
  | _ => fs
  end.

(** The contract of the ephemeral port allocator: a [bind] to port 0 is
    given a port of [1, 65535] that no open socket of the same family and
    type holds at that moment. *)
Definition holds_port (f t p : Z) (o : Z * open_file) : bool :=
  match o.2 with
  | Socket f' t' _ p' => (f' =? f) && (t' =? t) && (p' =? p)
  | OtherFile => false
  end.

Definition ephemeral_ok (fs : gmap Z open_file) (e : event) : bool :=
  match e with
  | EvBind fd sa (Some p) =>
      if ntohs (ss_port sa) =? 0 then
        match fs !! fd with
        | Some (Socket f t _ _) =>
            (1 <=? p) && (p <=? 65535)
            && negb (existsb (holds_port f t p) (map_to_list fs))
        | _ => true
        end
      else true
  | _ => true
  end.

Fixpoint kernel_contract (fs : gmap Z open_file) (evs : list event) : bool :=
  match evs with
  | [] => true
  | e :: r => ephemeral_ok fs e && kernel_contract (replay_event fs e) r
  end.

(** The descriptors the events opened and have not closed yet, and the
    largest number of them open at one time. *)
Definition track_open (held : list Z) (e : event) : list Z :=
  match e with
  | EvSocket _ _ fd => if fd <? 0 then held else held ++ [fd]
  | EvClose fd => filter (λ x, x ≠ fd) held
  | _ => held
  end.

Fixpoint peak_open (held : list Z) (evs : list event) : nat :=
  match evs with
  | [] => length held
  | e :: r => Nat.max (length held) (peak_open (track_open held e) r)
  end.

Definition still_open (evs : list event) : list Z := foldl track_open [] evs.

(** The events of the three phases of [find_free_ports], for a socket given
    as its descriptor and its local port. *)
Definition open_events (family socktype : Z) (s : Z * Z) : list event :=
  [EvSocket family socktype s.1; EvBind s.1 (setup_addr family 0).1 (Some s.2)].

Definition read_event (s : Z * Z) : event := EvGetsockname s.1 (Some s.2).

Definition close_event (s : Z * Z) : event := EvClose s.1.

(** The events of one probe of [find_free_ports_range]. *)
Definition probe_events (family socktype fd port : Z) (assigned : option Z)
  : list event :=
  [EvSocket family socktype fd; EvBind fd (setup_addr family port).1 assigned;
   EvClose fd].

(** The table with a list of bound sockets added. *)
Definition add_socks (family socktype : Z) (opened : list (Z * Z))
    (fs : gmap Z open_file) : gmap Z open_file :=
  foldl (λ m s, <[s.1 := Socket family socktype
                          (ss_addr (setup_addr family 0).1) s.2]> m) fs opened.

(** The shapes a run of [find_free_ports] can take: its return value, the
    sockets it bound (descriptor and local port, in the order of creation) and
    its system calls. *)
Inductive batch_run (family socktype count : Z)
  : Z → list (Z * Z) → list event → Prop :=
| Batch_done opened :
    Z.of_nat (length opened) = count →
    batch_run family socktype count 0 opened
      (flat_map (open_events family socktype) opened
       ++ map read_event opened ++ map close_event opened)
| Batch_socket_failed opened :
    Z.of_nat (length opened) < count →
    batch_run family socktype count (-1) opened
      (flat_map (open_events family socktype) opened
       ++ [EvSocket family socktype (-1)] ++ map close_event opened)
| Batch_bind_failed opened fd :
    Z.of_nat (length opened) < count →
    0 ≤ fd →
    batch_run family socktype count (-1) opened
      (flat_map (open_events family socktype) opened
       ++ [EvSocket family socktype fd; EvBind fd (setup_addr family 0).1 None]
       ++ map close_event opened ++ [EvClose fd])
| Batch_getsockname_failed opened m s :
    Z.of_nat (length opened) = count →
    opened !! m = Some s →
    batch_run family socktype count (-1) opened
      (flat_map (open_events family socktype) opened
       ++ map read_event (take m opened) ++ [EvGetsockname s.1 None]
       ++ map close_event opened).

(** The events of a run of probes of [find_free_ports_range] from iteration
    [i] on: each probe is given by its descriptor and by whether its [bind]
    succeeded. *)
Fixpoint scan_events (family socktype lo range start i : Z)
    (probes : list (Z * bool)) : list event :=
  match probes with
  | [] => []
  | (fd, ok) :: rest =>
      let port := candidate lo range start i in
      probe_events family socktype fd port (if ok then Some port else None)
      ++ scan_events family socktype lo range start (i + 1) rest
  end.

(** The candidates of those probes whose [bind] succeeded. *)
Fixpoint hits (lo range start i : Z) (probes : list (Z * bool)) : list Z :=
  match probes with
  | [] => []
  | (_, ok) :: rest =>
      (if ok then [candidate lo range start i] else [])
      ++ hits lo range start (i + 1) rest
  end.

(** The candidate sequence in the words of the specification. *)
Definition port_i (lo hi start i : Z) : Z :=
  lo + ((start - lo + i) mod (hi - lo + 1)).

(** Every [socket] call of the trace is made while fewer than [count] binds
    have succeeded ([nfound] of them before the trace starts). *)
Fixpoint probes_while_short (count nfound : Z) (evs : list event) : bool :=
  match evs with
  | [] => true
  | EvSocket _ _ _ :: r => (nfound <? count) && probes_while_short count nfound r
  | EvBind _ _ (Some _) :: r => probes_while_short count (nfound + 1) r
  | _ :: r => probes_while_short count nfound r
  end.

(** Every [getsockname] call of the trace is made after exactly [count] binds
    have succeeded ([nbound] of them before the trace starts). *)
Fixpoint reads_follow_binds (count nbound : Z) (evs : list event) : bool :=
  match evs with
  | [] => true
  | EvGetsockname _ _ :: r => (nbound =? count) && reads_follow_binds count nbound r
  | EvBind _ _ (Some _) :: r => reads_follow_binds count (nbound + 1) r
  | _ :: r => reads_follow_binds count nbound r
  end.

(** The shapes a run of [find_free_ports_range] can take: its return value,
    its probes and its system calls. *)
Inductive range_run (family socktype count lo range start : Z)
  : Z → list (Z * bool) → list event → Prop :=
| Range_found probes :
    Z.of_nat (length (hits lo range start 0 probes)) = count →
    range_run family socktype count lo range start 0 probes
      (scan_events family socktype lo range start 0 probes)
| Range_exhausted probes :
    Z.of_nat (length probes) = range →
    Z.of_nat (length (hits lo range start 0 probes)) < count →
    range_run family socktype count lo range start (-1) probes
      (scan_events family socktype lo range start 0 probes)
| Range_socket_failed probes :
    Z.of_nat (length probes) < range →
    Z.of_nat (length (hits lo range start 0 probes)) < count →
    range_run family socktype count lo range start (-1) probes
      (scan_events family socktype lo range start 0 probes
       ++ [EvSocket family socktype (-1)]).

(** ** Sample worlds *)

(** A process that has its three standard streams open and has made no
    system call yet, over a given kernel and pseudo-random source. *)
Definition std_files : gmap Z open_file :=
  <[0 := OtherFile]> (<[1 := OtherFile]> (<[2 := OtherFile]> ∅)).

Definition boot (k : nat → answer) (e : nat → Z) : world :=
  World k 0 e 0 0 std_files [] [] [].

(** A kernel that grants every call and picks the ports 40000, 40001, ... *)
Definition generous (k : nat) : answer := Grant (40000 + Z.of_nat k).

(** A kernel that refuses every call ([EMFILE]). *)
Definition exhausted (k : nat) : answer := Refuse 24.

(** A kernel that grants [socket] and refuses [bind] ([EADDRINUSE]) in the
    range search, where the calls alternate. *)
Definition all_busy (k : nat) : answer :=
  if Nat.even k then Grant 0 else Refuse 98.

(** A kernel that grants the first [n] calls and refuses the others. *)
Definition grants_first (n : nat) (k : nat) : answer :=
  if (k <? n)%nat then Grant (40000 + Z.of_nat k) else Refuse 24.

Definition fixed_draw (r : Z) (k : nat) : Z := r.


(** The configurations that [main] hands to the acquisition routines. *)
Definition valid_config (c : config) : Prop :=
  1 ≤ cfg_count c ≤ MAX_PORTS ∧
  (cfg_use_range c = 0 ∨
   (cfg_use_range c = 1 ∧
    1 ≤ cfg_range_lo c ≤ cfg_range_hi c ∧ cfg_range_hi c ≤ 65535)).

(** The ranges that the [-r] case of [main] refuses. *)
Definition bad_range (s : scanned) : Prop :=
  match s with
  | Scan2 lo hi => lo < 1 ∨ hi > 65535 ∨ lo > hi
  | _ => True
  end.

(** ** Failure causes and failure signals *)

Inductive failure_cause :=
| No_free_port     (* the scan ended without enough free ports *)
| Os_error.        (* a socket could not be created *)

Definition socket_refused (e : event) : bool :=
  match e with
  | EvSocket _ _ fd => fd <? 0
  | _ => false
  end.

Definition cause_of (evs : list event) : failure_cause :=
  if existsb socket_refused evs then Os_error else No_free_port.

(** What the caller of [find_free_ports_range] has in hand after the call:
    the return value, the [ports] array, and what the call wrote to the
    standard error. *)
Definition failure_signal (w : world) (r : Z * list Z * world)
  : Z * list Z * list err_line :=
  (r.1.1, r.1.2, drop (length (stderr w)) (stderr r.2)).

(** The claim that the signal tells the causes apart. *)
Definition signal_distinguishes_causes : Prop :=
  ∃ classify : Z * list Z * list err_line → failure_cause,
    ∀ (ports : list Z) (count lo hi socktype family : Z) (w : world),
      1 ≤ lo ≤ hi ∧ hi ≤ 65535 → 1 ≤ count ≤ hi - lo + 1 →
      (Z.to_nat count ≤ length ports)%nat →
      let r := find_free_ports_range ports count lo hi socktype family w in
      r.1.1 ≠ 0 →
      classify (failure_signal w r) = cause_of (events_since w r.2).

(** ** What the system calls of a run are made with *)

(** The loopback address of a family, as [setup_addr] stores it. *)
Definition loopback_of (family : Z) : Z :=
  if family =? AF_INET then htonl INADDR_LOOPBACK else in6addr_loopback.

(** A [socket] call is made with the given family and type, and a [bind]
    call with the loopback address of that family. *)
Definition event_uses (family socktype : Z) (e : event) : Prop :=
  match e with
  | EvSocket f t _ => f = family ∧ t = socktype
  | EvBind _ sa _ => ss_family sa = family ∧ ss_addr sa = loopback_of family
  | _ => True
  end.

(** The trace has no [socket] call that succeeds. *)
Definition opens_nothing (e : event) : Prop :=
  match e with
  | EvSocket _ _ fd => fd < 0
  | _ => True
  end.

(** The kernel grants every call. *)
Definition grants_all (k : nat → answer) : Prop :=
  ∀ n, ∃ pick, k n = Grant pick.

(** The ports that the [getsockname] calls of a trace returned, as
    [read_port] reads them. *)
Fixpoint read_ports (evs : list event) : list Z :=
  match evs with
  | [] => []
  | EvGetsockname _ (Some p) :: r => to_uint16 p :: read_ports r
  | _ :: r => read_ports r
  end.

(** The call of a trace that failed first, by the label that [find_free_ports]
    gives to [perror] for it. *)
Fixpoint failed_call (evs : list event) : option string :=
  match evs with
  | [] => None
  | EvSocket _ _ fd :: r => if fd <? 0 then Some "fp: socket"%string else failed_call r
  | EvBind _ _ None :: _ => Some "fp: bind"%string
  | EvGetsockname _ None :: _ => Some "fp: getsockname"%string
  | _ :: r => failed_call r
  end.

(** The claim that a range-constrained search that has scanned its whole
    interval and fails delivers none of the ports it found: a port it bound
    is in the array it hands back only if the caller had put it there. *)
Definition failure_delivers_no_found_port : Prop :=
  ∀ (ports : list Z) (count lo hi socktype family : Z) (w : world),
    1 ≤ lo ≤ hi ∧ hi ≤ 65535 → 1 ≤ count ≤ hi - lo + 1 →
    (Z.to_nat count ≤ length ports)%nat →
    let r := find_free_ports_range ports count lo hi socktype family w in
    r.1.1 ≠ 0 →
    Z.of_nat (length (probed (events_since w r.2))) = hi - lo + 1 →
    ∀ p, p ∈ bound_ports (events_since w r.2) → p ∈ r.1.2 → p ∈ ports.

(** A kernel that refuses the second call only: in the range search, the
    [bind] of the first probe. *)
Definition first_busy (k : nat) : answer :=
  if (k =? 1)%nat then Refuse 98 else Grant 0.
(** ** Integers and byte order *)

Lemma to_int_small (x : Z) : - 2 ^ 31 ≤ x < 2 ^ 31 → to_int x = x.
Proof.
  intros H. unfold to_int.
  rewrite Z.mod_small; lia.
Qed.

Lemma to_unsigned_small (x : Z) : 0 ≤ x < 2 ^ 32 → to_unsigned x = x.
Proof. intros H. unfold to_unsigned. apply Z.mod_small. lia. Qed.

Lemma to_uint16_small (x : Z) : 0 ≤ x < 65536 → to_uint16 x = x.
Proof. intros H. unfold to_uint16. apply Z.mod_small. lia. Qed.

Lemma to_uint16_range (x : Z) : 0 ≤ to_uint16 x < 65536.
Proof. unfold to_uint16. apply Z.mod_pos_bound. lia. Qed.

Lemma holds_from_spec (n : nat) (f : Z → bool) :
  ∀ x y, holds_from n x f = true → x ≤ y < x + Z.of_nat n → f y = true.
Proof.
  induction n as [|n IH]; intros x y H Hy; [lia|].
  simpl in H. apply andb_true_iff in H as [Hx H].
  destruct (decide (y = x)) as [->|Hne]; [done|].
  apply (IH (x + 1)); [done|lia].
Qed.

Lemma bswap16_table : holds_from (Z.to_nat 65536) 0 bswap16_check = true.
Proof. vm_compute. reflexivity. Qed.

Lemma bswap16_checked (y : Z) : 0 ≤ y < 65536 → bswap16_check y = true.
Proof.
  intros H. apply (holds_from_spec _ _ 0 y bswap16_table). lia.
Qed.

Lemma bswap16_range (y : Z) : 0 ≤ y < 65536 → 0 ≤ bswap16 y < 65536.
Proof.
  intros H. pose proof (bswap16_checked y H) as C.
  unfold bswap16_check in C. lia.
Qed.

Lemma ntohs_htons (x : Z) : ntohs (htons x) = to_uint16 x.
Proof.
  unfold ntohs, htons.
  pose proof (to_uint16_range x) as R.
  pose proof (bswap16_checked _ R) as C.
  unfold bswap16_check in C. lia.
Qed.

Lemma ntohs_htons_port (p : Z) : 0 ≤ p < 65536 → ntohs (htons p) = p.
Proof. intros H. rewrite ntohs_htons. by apply to_uint16_small. Qed.

Lemma read_port_htons (f a p family : Z) :
  read_port (SockAddr f a (htons p)) family = to_uint16 p.
Proof. unfold read_port. simpl. destruct (family =? AF_INET); apply ntohs_htons. Qed.

Lemma setup_addr_port (family port : Z) :
  ntohs (ss_port (setup_addr family port).1) = to_uint16 port.
Proof. unfold setup_addr. destruct (family =? AF_INET); simpl; apply ntohs_htons. Qed.

(** ** The descriptor table *)

Lemma lowest_free_from_ge (fs : gmap Z open_file) (n : nat) (k : Z) :
  k ≤ lowest_free_from fs n k.
Proof.
  revert k. induction n as [|n IH]; intros k; simpl; [lia|].
  destruct (fs !! k); [|lia].
  specialize (IH (k + 1)). lia.
Qed.

Lemma lowest_free_from_fresh (fs : gmap Z open_file) (n : nat) (k : Z) :
  0 ≤ k →
  (∀ j, 0 ≤ j < k → is_Some (fs !! j)) →
  size fs = (n + Z.to_nat k)%nat →
  fs !! lowest_free_from fs n k = None.
Proof.
  revert k. induction n as [|n IH]; intros k Hk Hbelow Hsize; simpl.
  - destruct (fs !! k) eqn:E; [|done].
    exfalso.
    assert (list_to_set (seqZ 0 (k + 1)) ⊆ dom fs) as Hsub.
    { intros j Hj. apply elem_of_list_to_set, elem_of_seqZ in Hj.
      apply elem_of_dom.
      destruct (decide (j = k)) as [->|]; [by rewrite E|].
      apply Hbelow. lia. }
    apply subseteq_size in Hsub.
    rewrite size_dom, size_list_to_set, length_seqZ in Hsub by apply NoDup_seqZ.
    simpl in Hsize. lia.
  - destruct (fs !! k) eqn:E; [|done].
    apply IH; [lia| |lia].
    intros j Hj.
    destruct (decide (j = k)) as [->|]; [by rewrite E|].
    apply Hbelow. lia.
Qed.

Lemma lowest_free_fresh (fs : gmap Z open_file) : fs !! lowest_free fs = None.
Proof.
  unfold lowest_free. apply lowest_free_from_fresh; [lia| |simpl; lia].
  intros j Hj. lia.
Qed.

Lemma lowest_free_nonneg (fs : gmap Z open_file) : 0 ≤ lowest_free fs.
Proof. unfold lowest_free. apply lowest_free_from_ge. Qed.

(** ** Arrays *)

Lemma array_get_set (a : list Z) (i v : Z) :
  (Z.to_nat i < length a)%nat → array_get (array_set a i v) i = v.
Proof. intros H. unfold array_get, array_set. by apply list_lookup_total_insert_eq. Qed.

Lemma array_set_length (a : list Z) (i v : Z) :
  length (array_set a i v) = length a.
Proof. unfold array_set. apply length_insert. Qed.

Lemma array_get_lookup (a : list Z) (i v : Z) :
  a !! Z.to_nat i = Some v → array_get a i = v.
Proof. intros H. unfold array_get. by apply list_lookup_total_correct. Qed.

Lemma fresh_array_length : length fresh_array = Z.to_nat MAX_PORTS.
Proof. unfold fresh_array. apply length_replicate. Qed.

(** ** Unconstrained batch acquisition, loop by loop *)

(** The goals left when a loop stops without opening a socket. *)
Ltac batch_stops :=
  repeat split;
  first [ done | lia | apply NoDup_nil_2 | apply Forall_nil_2
        | (intros ? Hk; by apply elem_of_nil in Hk) ].

Section Batch.

Variables count socktype family : Z.

Lemma setup_addr_zero_request :
  ntohs (ss_port (setup_addr family 0).1) = 0.
Proof. rewrite setup_addr_port. reflexivity. Qed.

(** What the first loop does: it opens and binds a list [opened] of sockets
    and then either runs to its end, or stops at a [socket] that fails, or at
    a [bind] that fails. *)
Lemma open_all_spec (n : nat) :
  ∀ (i : Z) (fds : list Z) (w : world) r fds' w',
    0 ≤ i → (Z.to_nat i + n ≤ length fds)%nat →
    open_all n i count socktype family fds w = (r, fds', w') →
    ∃ opened : list (Z * Z),
      length fds' = length fds ∧
      (∀ k, (k < Z.to_nat i)%nat → fds' !! k = fds !! k) ∧
      (∀ k s, opened !! k = Some s → fds' !! (Z.to_nat i + k)%nat = Some s.1) ∧
      stdout w' = stdout w ∧
      NoDup (opened.*1) ∧
      Forall (λ s, 0 ≤ s.1 ∧ 0 ≤ s.2 < 65536) opened ∧
      (∀ fd, fd ∈ (opened.*1) → files w !! fd = None) ∧
      match r with
      | None =>
          Z.of_nat (length opened) = Z.min (Z.of_nat n) (Z.max 0 (count - i)) ∧
          trace w' = trace w ++ flat_map (open_events family socktype) opened ∧
          files w' = add_socks family socktype opened (files w) ∧
          stderr w' = stderr w
      | Some j =>
          i + Z.of_nat (length opened) < count ∧
          ((j = i + Z.of_nat (length opened) ∧
            trace w' = trace w ++ flat_map (open_events family socktype) opened
                               ++ [EvSocket family socktype (-1)] ∧
            files w' = add_socks family socktype opened (files w) ∧
            ∃ e, stderr w' = stderr w ++ [Err_perror "fp: socket" e])
           ∨ (∃ fd, j = i + Z.of_nat (length opened) + 1 ∧
                fds' !! (Z.to_nat i + length opened)%nat = Some fd ∧
                trace w' = trace w ++ flat_map (open_events family socktype) opened
                                   ++ [EvSocket family socktype fd;
                                       EvBind fd (setup_addr family 0).1 None] ∧
                files w' = <[fd := Socket family socktype 0 0]>
                             (add_socks family socktype opened (files w)) ∧
                fd ∉ (opened.*1) ∧ files w !! fd = None ∧ 0 ≤ fd ∧
                ∃ e, stderr w' = stderr w ++ [Err_perror "fp: bind" e]))
      end.
Proof.
  induction n as [|n IH]; intros i fds w r fds' w' Hi Hlen Hrun; simpl in Hrun.
  { injection Hrun as <- <- <-. exists []. simpl.
    rewrite app_nil_r. batch_stops. }
  destruct (i <? count) eqn:Hic.
  2: { injection Hrun as <- <- <-. exists []. simpl.
       rewrite app_nil_r. batch_stops. }
  unfold sys_socket in Hrun.
  destruct (kernel w (ticks w)) as [e|pk] eqn:K1.
  - (* socket() fails *)
    rewrite array_get_set in Hrun by lia. simpl in Hrun.
    injection Hrun as <- <- <-. exists []. simpl.
    split; [apply array_set_length|].
    split; [intros k Hk; unfold array_set; apply list_lookup_insert_ne; lia|].
    split; [done|]. split; [done|]. split; [apply NoDup_nil_2|].
    split; [apply Forall_nil_2|].
    split; [intros fd Hfd; by apply elem_of_nil in Hfd|].
    split; [lia|]. left. split; [lia|]. split; [done|]. split; [done|].
    by exists e.
  - (* socket() succeeds *)
    set (fd := lowest_free (files w)) in *.
    assert (files w !! fd = None) as Hfresh by apply lowest_free_fresh.
    assert (0 ≤ fd) as Hfd0 by apply lowest_free_nonneg.
    rewrite !array_get_set in Hrun by lia.
    destruct (fd <? 0) eqn:Hneg; [lia|].
    destruct (setup_addr family 0) as [sa salen] eqn:SA.
    assert (ntohs (ss_port sa) = 0) as Hreq.
    { pose proof setup_addr_zero_request as Z0. by rewrite SA in Z0. }
    unfold sys_bind in Hrun. simpl in Hrun.
    rewrite lookup_insert_eq in Hrun.
    destruct (kernel w (S (ticks w))) as [e|pick] eqn:K2; simpl in Hrun.
    + (* bind() fails *)
      injection Hrun as <- <- <-. exists []. simpl.
      split; [apply array_set_length|].
      split; [intros k Hk; unfold array_set; apply list_lookup_insert_ne; lia|].
      split; [done|]. split; [done|]. split; [apply NoDup_nil_2|].
      split; [apply Forall_nil_2|].
      split; [intros x Hx; by apply elem_of_nil in Hx|].
      split; [lia|]. right. exists fd. split; [lia|].
      split.
      { rewrite Nat.add_0_r. unfold array_set. apply list_lookup_insert_eq. lia. }
      split; [by rewrite <- app_assoc|].
      split; [done|]. split; [apply not_elem_of_nil|].
      split; [done|]. split; [done|]. by exists e.
    + (* bind() succeeds *)
      rewrite Hreq in Hrun. simpl in Hrun.
      rewrite insert_insert_eq in Hrun.
      apply IH in Hrun; [|lia|rewrite array_set_length; lia].
      destruct Hrun as (opened & Hl & Hbelow & Hcells & Hout & Hnd & Hrng & Hfr & Hr).
      simpl in Hfr, Hr, Hout.
      exists ((fd, to_uint16 pick) :: opened).
      split; [by rewrite Hl, array_set_length|].
      split.
      { intros k Hk. rewrite Hbelow by lia.
        unfold array_set. apply list_lookup_insert_ne. lia. }
      split.
      { intros [|k] s Hs; simpl in Hs.
        - injection Hs as <-. simpl. rewrite Nat.add_0_r, Hbelow by lia.
          unfold array_set. apply list_lookup_insert_eq. lia.
        - replace (Z.to_nat i + S k)%nat with (Z.to_nat (i + 1) + k)%nat by lia.
          by apply Hcells. }
      split; [done|].
      assert (fd ∉ opened.*1) as Hnotin.
      { intros Hin. apply Hfr in Hin. by rewrite lookup_insert_eq in Hin. }
      split; [simpl; by apply NoDup_cons_2|].
      split.
      { apply Forall_cons_2; [|done]. simpl.
        split; [done|apply to_uint16_range]. }
      split.
      { intros x Hx. simpl in Hx. apply elem_of_cons in Hx as [->|Hx]; [done|].
        apply Hfr in Hx.
        destruct (decide (fd = x)) as [->|Hne]; [by rewrite lookup_insert_eq in Hx|].
        by rewrite lookup_insert_ne in Hx. }
      assert (add_socks family socktype ((fd, to_uint16 pick) :: opened) (files w)
              = add_socks family socktype opened
                  (<[fd := Socket family socktype (ss_addr sa) (to_uint16 pick)]> (files w)))
        as Hadd.
      { unfold add_socks. simpl. by rewrite SA. }
      destruct r as [j|].
      * destruct Hr as (Hlt & [(Hj & Htr & Hfs & Herr)
                              |(fd2 & Hj & Hcell & Htr & Hfs & Hni & Hfr2 & Hfd2 & Herr)]);
          (split; [simpl length; lia|]).
        -- left. split; [simpl length; lia|]. split.
           ++ rewrite Htr. simpl. rewrite SA. simpl. by rewrite <- !app_assoc.
           ++ by rewrite Hadd.
        -- right. exists fd2. split; [simpl length; lia|].
           split.
           { replace (Z.to_nat i + length ((fd, to_uint16 pick) :: opened))%nat
               with (Z.to_nat (i + 1) + length opened)%nat by (simpl; lia).
             done. }
           split.
           { rewrite Htr. simpl. rewrite SA. simpl. by rewrite <- !app_assoc. }
           split; [by rewrite Hadd|].
           assert (fd ≠ fd2) as Hne.
           { intros <-. by rewrite lookup_insert_eq in Hfr2. }
           split.
           { simpl. intros Hin. apply elem_of_cons in Hin as [?|?]; by subst. }
           split; [by rewrite lookup_insert_ne in Hfr2|done].
      * destruct Hr as (Hm & Htr & Hfs & Herr).
        split; [simpl length; lia|]. split.
        -- rewrite Htr. simpl. rewrite SA. simpl. by rewrite <- !app_assoc.
        -- by rewrite Hadd.
Qed.

(** What the second loop does on sockets [socks] that are open and bound. *)
Lemma read_all_spec (n : nat) :
  ∀ (i : Z) (fds ports : list Z) (w : world) ok ports' w' (socks : list (Z * Z)),
    0 ≤ i → Z.of_nat n = count - i → length socks = n →
    (Z.to_nat i + n ≤ length ports)%nat →
    (∀ k s, socks !! k = Some s →
       fds !! (Z.to_nat i + k)%nat = Some s.1 ∧
       ∃ f t a, files w !! s.1 = Some (Socket f t a s.2)) →
    read_all n i count family fds ports w = (ok, ports', w') →
    files w' = files w ∧ stdout w' = stdout w ∧ length ports' = length ports ∧
    (∀ k, (k < Z.to_nat i)%nat → ports' !! k = ports !! k) ∧
    if ok then
      trace w' = trace w ++ map read_event socks ∧
      stderr w' = stderr w ∧
      (∀ k s, socks !! k = Some s →
         ports' !! (Z.to_nat i + k)%nat = Some (to_uint16 s.2))
    else
      ∃ (m : nat) s, socks !! m = Some s ∧
        trace w' = trace w ++ map read_event (take m socks)
                           ++ [EvGetsockname s.1 None] ∧
        ∃ e, stderr w' = stderr w ++ [Err_perror "fp: getsockname" e].
Proof.
  induction n as [|n IH];
    intros i fds ports w ok ports' w' socks Hi Hn Hlen Hports Hsocks Hrun;
    simpl in Hrun.
  { injection Hrun as <- <- <-. destruct socks; [|done]. simpl.
    rewrite app_nil_r. repeat split; done. }
  destruct (i <? count) eqn:Hic; [|lia].
  destruct socks as [|s0 socks]; [done|].
  destruct (Hsocks 0%nat s0 eq_refl) as (Hcell & f & t & a & Hfile).
  rewrite Nat.add_0_r in Hcell.
  rewrite (array_get_lookup _ _ _ Hcell) in Hrun.
  unfold sys_getsockname in Hrun. rewrite Hfile in Hrun.
  destruct (kernel w (ticks w)) as [e|pk] eqn:K; simpl in Hrun.
  - injection Hrun as <- <- <-. simpl.
    repeat split; try done.
    exists 0%nat, s0. split; [done|]. simpl. split; [done|]. by exists e.
  - rewrite read_port_htons in Hrun.
    apply (IH _ _ _ _ _ _ _ socks) in Hrun;
      [|lia|lia|simpl in Hlen; lia|rewrite array_set_length; lia|].
    2: { intros k s Hs. destruct (Hsocks (S k) s Hs) as (Hc & Hf).
         split; [|done].
         replace (Z.to_nat (i + 1) + k)%nat with (Z.to_nat i + S k)%nat by lia.
         done. }
    destruct Hrun as (Hfs & Hout & Hl & Hbelow & Hok).
    simpl in Hfs, Hout.
    split; [done|]. split; [done|].
    split; [by rewrite Hl, array_set_length|].
    split.
    { intros k Hk. rewrite Hbelow by lia.
      unfold array_set. apply list_lookup_insert_ne. lia. }
    destruct ok.
    + destruct Hok as (Htr & Herr & Hcells). split; [|split; [done|]].
      * rewrite Htr. simpl. by rewrite <- app_assoc.
      * intros [|k] s Hs; simpl in Hs.
        -- injection Hs as <-. rewrite Nat.add_0_r, Hbelow by lia.
           unfold array_set. apply list_lookup_insert_eq. lia.
        -- replace (Z.to_nat i + S k)%nat with (Z.to_nat (i + 1) + k)%nat by lia.
           by apply Hcells.
    + destruct Hok as (m & s & Hs & Htr & Herr).
      exists (S m), s. split; [done|]. split; [|done].
      rewrite Htr. simpl. by rewrite <- app_assoc.
Qed.

(** What a closing loop does. *)
Lemma close_all_spec (n : nat) :
  ∀ (j i : Z) (fds : list Z) (w : world),
    0 ≤ j → (Z.to_nat (i - j) ≤ n)%nat → (Z.to_nat i ≤ length fds)%nat →
    let w' := close_all n j i fds w in
    let cl := take (Z.to_nat (i - j)) (drop (Z.to_nat j) fds) in
    trace w' = trace w ++ map EvClose cl ∧
    files w' = foldl (λ m fd, delete fd m) (files w) cl ∧
    stdout w' = stdout w ∧ stderr w' = stderr w.
Proof.
  induction n as [|n IH]; intros j i fds w Hj Hn Hlen; simpl.
  { replace (Z.to_nat (i - j)) with 0%nat by lia. simpl.
    by rewrite app_nil_r. }
  destruct (j <? i) eqn:Hji.
  2: { replace (Z.to_nat (i - j)) with 0%nat by lia. simpl.
       by rewrite app_nil_r. }
  destruct (lookup_lt_is_Some_2 fds (Z.to_nat j)) as [x Hx]; [lia|].
  rewrite (array_get_lookup _ _ _ Hx).
  specialize (IH (j + 1) i fds (sys_close x w)).
  destruct IH as (Htr & Hfs & Hout & Herr); [lia|lia|lia|].
  simpl in Htr, Hfs, Hout, Herr.
  replace (Z.to_nat (i - j)) with (S (Z.to_nat (i - (j + 1)))) by lia.
  rewrite (drop_S _ _ _ Hx). simpl.
  replace (S (Z.to_nat j)) with (Z.to_nat (j + 1)) by lia.
  rewrite Htr, Hfs, <- app_assoc. done.
Qed.

(** Closing the sockets that were added gives the table back. *)
Lemma delete_add_socks (opened : list (Z * Z)) :
  ∀ (fs : gmap Z open_file) (fd : Z),
    fd ∉ (opened.*1) →
    delete fd (add_socks family socktype opened fs)
    = add_socks family socktype opened (delete fd fs).
Proof.
  induction opened as [|s opened IH]; intros fs fd Hfd; [done|].
  simpl in Hfd. apply not_elem_of_cons in Hfd as [Hne Hfd].
  unfold add_socks in *. simpl.
  rewrite IH by done. by rewrite delete_insert_ne.
Qed.

Lemma close_add_socks (opened : list (Z * Z)) :
  ∀ fs : gmap Z open_file,
    NoDup (opened.*1) → (∀ fd, fd ∈ (opened.*1) → fs !! fd = None) →
    foldl (λ m fd, delete fd m) (add_socks family socktype opened fs) (opened.*1) = fs.
Proof.
  induction opened as [|s opened IH]; intros fs Hnd Hfr; [done|].
  simpl in Hnd. apply NoDup_cons in Hnd as [Hni Hnd].
  change (foldl (λ m fd, delete fd m)
            (delete s.1 (add_socks family socktype opened
               (<[s.1 := Socket family socktype
                           (ss_addr (setup_addr family 0).1) s.2]> fs)))
            (opened.*1) = fs).
  rewrite delete_add_socks by done.
  rewrite delete_insert_eq.
  rewrite delete_id by (apply Hfr; simpl; apply elem_of_cons; by left).
  apply IH; [done|].
  intros fd Hfd. apply Hfr. simpl. apply elem_of_cons. by right.
Qed.

Lemma take_cells (opened : list (Z * Z)) (fds : list Z) :
  (∀ k s, opened !! k = Some s → fds !! k = Some s.1) →
  take (length opened) fds = opened.*1.
Proof.
  intros H. apply list_eq. intros k.
  rewrite list_lookup_fmap.
  destruct (opened !! k) as [s|] eqn:E; simpl.
  - rewrite lookup_take_lt by (by apply lookup_lt_Some in E). by apply H.
  - apply lookup_take_ge. by apply lookup_ge_None in E.
Qed.

Lemma add_socks_lookup (opened : list (Z * Z)) :
  ∀ (fs : gmap Z open_file) k s,
    NoDup (opened.*1) → opened !! k = Some s →
    add_socks family socktype opened fs !! s.1
    = Some (Socket family socktype (ss_addr (setup_addr family 0).1) s.2).
Proof.
  induction opened as [|s0 opened IH]; intros fs k s Hnd Hs; [done|].
  simpl in Hnd. apply NoDup_cons in Hnd as [Hni Hnd].
  change (add_socks family socktype opened
            (<[s0.1 := Socket family socktype
                         (ss_addr (setup_addr family 0).1) s0.2]> fs) !! s.1
          = Some (Socket family socktype (ss_addr (setup_addr family 0).1) s.2)).
  destruct k as [|k]; simpl in Hs.
  - injection Hs as ->.
    assert (∀ l m, s.1 ∉ (l.*1) →
              add_socks family socktype l m !! s.1 = m !! s.1) as Hskip.
    { clear. induction l as [|x l IHl]; intros m Hx; [done|].
      simpl in Hx. apply not_elem_of_cons in Hx as [Hne Hx].
      unfold add_socks in *. simpl. rewrite IHl by done.
      by rewrite lookup_insert_ne. }
    rewrite Hskip by done. apply lookup_insert_eq.
  - by apply (IH _ k).
Qed.

Lemma map_close_event (opened : list (Z * Z)) :
  map close_event opened = map EvClose (opened.*1).
Proof. induction opened as [|s l IH]; simpl; [done|]. by rewrite IH. Qed.

Lemma foldl_delete_insert (l : list Z) :
  ∀ (m : gmap Z open_file) (fd : Z) (v : open_file),
    fd ∉ l →
    foldl (λ m fd, delete fd m) (<[fd := v]> m) l
    = <[fd := v]> (foldl (λ m fd, delete fd m) m l).
Proof.
  induction l as [|x l IH]; intros m fd v Hfd; [done|].
  apply not_elem_of_cons in Hfd as [Hne Hfd]. simpl.
  rewrite delete_insert_ne by done. by apply IH.
Qed.

(** The whole of [find_free_ports]. *)
(** The first failed call of a trace is not among the calls of sockets that
    were opened and bound, read or closed. *)
Lemma failed_call_opens (opened : list (Z * Z)) (rest : list event) :
  Forall (λ s : Z * Z, 0 ≤ s.1 ∧ 0 ≤ s.2 < 65536) opened →
  failed_call (flat_map (open_events family socktype) opened ++ rest)
  = failed_call rest.
Proof.
  induction 1 as [|s l [Hs _] _ IH]; [done|]. simpl.
  by assert (s.1 <? 0 = false) as -> by lia.
Qed.

Lemma failed_call_reads (l : list (Z * Z)) (rest : list event) :
  failed_call (map read_event l ++ rest) = failed_call rest.
Proof. induction l as [|s l IH]; [done|]. simpl. exact IH. Qed.

Lemma failed_call_closes (l : list (Z * Z)) (rest : list event) :
  failed_call (map close_event l ++ rest) = failed_call rest.
Proof. induction l as [|s l IH]; [done|]. simpl. exact IH. Qed.

Lemma find_free_ports_calls (ports : list Z) (w : world) rc ports' w' :
  0 ≤ count ≤ MAX_PORTS → (Z.to_nat count ≤ length ports)%nat →
  find_free_ports ports count socktype family w = (rc, ports', w') →
  ∃ (opened : list (Z * Z)) (evs : list event),
    batch_run family socktype count rc opened evs ∧
    trace w' = trace w ++ evs ∧
    files w' = files w ∧
    stdout w' = stdout w ∧
    length ports' = length ports ∧
    NoDup (opened.*1) ∧
    Forall (λ s, 0 ≤ s.1 ∧ 0 ≤ s.2 < 65536) opened ∧
    (∀ fd, fd ∈ (opened.*1) → files w !! fd = None) ∧
    (rc = 0 → take (Z.to_nat count) ports' = opened.*2 ∧ stderr w' = stderr w) ∧
    (rc = -1 → ∃ what e,
       failed_call evs = Some what ∧
       what ∈ ["fp: socket"; "fp: bind"; "fp: getsockname"]%string ∧
       stderr w' = stderr w ++ [Err_perror what e]).
Proof.
  intros Hc Hports Hrun. unfold find_free_ports in Hrun.
  destruct (open_all (Z.to_nat count) 0 count socktype family fresh_array w)
    as [[r fds1] w1] eqn:Hopen.
  apply open_all_spec in Hopen; [|lia|rewrite fresh_array_length; unfold MAX_PORTS in *; lia].
  destruct Hopen as (opened & Hl & _ & Hcells & Hout & Hnd & Hrng & Hfr & Hr).
  rewrite fresh_array_length in Hl.
  change (Z.to_nat 0) with 0%nat in Hcells. simpl in Hcells.
  pose proof (take_cells _ _ Hcells) as Htake.
  exists opened.
  destruct r as [j|].
  - (* goto fail *)
    injection Hrun as <- <- <-.
    destruct Hr as (Hlt & [(Hj & Htr & Hfs & e & Herr)
                          |(fd & Hj & Hcell & Htr & Hfs & Hni & Hfresh & Hfd & e & Herr)]).
    + pose proof (close_all_spec (Z.to_nat j) 0 j fds1 w1) as Hclose.
      simpl in Hclose. destruct Hclose as (Ctr & Cfs & Cout & Cerr);
        [lia|lia|unfold MAX_PORTS in *; lia|].
      rewrite drop_0 in Ctr, Cfs.
      replace (Z.to_nat (j - 0)) with (length opened) in Ctr, Cfs by lia.
      rewrite Htake in Ctr, Cfs.
      eexists. split; [by apply Batch_socket_failed; lia|].
      split.
      { rewrite Ctr. simpl in Htr. rewrite Htr, map_close_event.
        by rewrite <- !app_assoc. }
      split.
      { rewrite Cfs, Hfs. by apply close_add_socks. }
      split; [by rewrite Cout|].
      repeat split; try done.
      intros _. exists "fp: socket"%string, e.
      split; [by rewrite failed_call_opens|].
      split; [set_solver|by rewrite Cerr].
    + pose proof (close_all_spec (Z.to_nat j) 0 j fds1 w1) as Hclose.
      simpl in Hclose. destruct Hclose as (Ctr & Cfs & Cout & Cerr);
        [lia|lia|unfold MAX_PORTS in *; lia|].
      rewrite drop_0 in Ctr, Cfs.
      replace (Z.to_nat (j - 0)) with (S (length opened)) in Ctr, Cfs by lia.
      simpl in Hcell.
      rewrite (take_S_r _ _ _ Hcell), Htake in Ctr, Cfs.
      eexists. split; [by apply (Batch_bind_failed _ _ _ _ fd); lia|].
      split.
      { rewrite Ctr. simpl in Htr. rewrite Htr, map_close_event, map_app.
        simpl. by rewrite <- !app_assoc. }
      split.
      { rewrite Cfs, Hfs, foldl_app. simpl.
        rewrite foldl_delete_insert by done.
        rewrite delete_insert_eq, close_add_socks by done.
        by apply delete_id. }
      split; [by rewrite Cout|].
      repeat split; try done.
      intros _. exists "fp: bind"%string, e.
      split.
      { rewrite failed_call_opens by done. simpl.
        by assert (fd <? 0 = false) as -> by lia. }
      split; [set_solver|by rewrite Cerr].
  - (* all sockets bound *)
    destruct Hr as (Hlen & Htr & Hfs & Herr).
    assert (length opened = Z.to_nat count) as Hlen' by lia.
    destruct (read_all (Z.to_nat count) 0 count family fds1 ports w1)
      as [[ok ports1] w2] eqn:Hread.
    apply (read_all_spec _ _ _ _ _ _ _ _ opened) in Hread; [|lia|lia|done|simpl; lia|].
    2: { intros k s Hs. split; [by apply Hcells|].
         eexists _, _, _. rewrite Hfs. by apply (add_socks_lookup _ _ k). }
    destruct Hread as (Rfs & Rout & Rl & _ & Rok).
    pose proof (close_all_spec (Z.to_nat count) 0 count fds1 w2) as Hclose.
    simpl in Hclose. destruct Hclose as (Ctr & Cfs & Cout & Cerr);
      [lia|lia|unfold MAX_PORTS in *; lia|].
    rewrite drop_0 in Ctr, Cfs.
    replace (Z.to_nat (count - 0)) with (length opened) in Ctr, Cfs by lia.
    rewrite Htake in Ctr, Cfs.
    assert (foldl (λ m fd, delete fd m) (files w2) (opened.*1) = files w) as Hback.
    { rewrite Rfs, Hfs. by apply close_add_socks. }
    destruct ok.
    + injection Hrun as <- <- <-. destruct Rok as (Rtr & Rerr & Rcells).
      eexists. split; [by apply Batch_done; lia|].
      split.
      { rewrite Ctr, Rtr, Htr, map_close_event. by rewrite <- !app_assoc. }
      split; [by rewrite Cfs|].
      split; [by rewrite Cout, Rout|].
      repeat split; try done.
      * rewrite <- Hlen'.
        apply list_eq. intros k. rewrite list_lookup_fmap.
        destruct (opened !! k) as [s|] eqn:E; simpl.
        -- rewrite lookup_take_lt by (by apply lookup_lt_Some in E).
           change (ports1 !! (Z.to_nat 0 + k)%nat = Some s.2).
           rewrite (Rcells k s E). f_equal.
           apply to_uint16_small.
           rewrite Forall_forall in Hrng. apply Hrng.
           by apply list_elem_of_lookup_2 in E.
        -- apply lookup_take_ge. by apply lookup_ge_None in E.
      * by rewrite Cerr, Rerr.
    + injection Hrun as <- <- <-. destruct Rok as (m & s & Hs & Rtr & e & Rerr).
      eexists. split; [by apply (Batch_getsockname_failed _ _ _ _ m s); [lia|]|].
      split.
      { rewrite Ctr, Rtr, Htr, map_close_event. by rewrite <- !app_assoc. }
      split; [by rewrite Cfs|].
      split; [by rewrite Cout, Rout|].
      repeat split; try done.
      intros _. exists "fp: getsockname"%string, e.
      split; [by rewrite failed_call_opens, failed_call_reads|].
      split; [set_solver|by rewrite Cerr, Rerr, Herr].
Qed.

Lemma find_free_ports_spec (ports : list Z) (w : world) rc ports' w' :
  0 ≤ count ≤ MAX_PORTS → (Z.to_nat count ≤ length ports)%nat →
  find_free_ports ports count socktype family w = (rc, ports', w') →
  ∃ (opened : list (Z * Z)) (evs : list event),
    batch_run family socktype count rc opened evs ∧
    trace w' = trace w ++ evs ∧
    files w' = files w ∧
    stdout w' = stdout w ∧
    length ports' = length ports ∧
    NoDup (opened.*1) ∧
    Forall (λ s, 0 ≤ s.1 ∧ 0 ≤ s.2 < 65536) opened ∧
    (∀ fd, fd ∈ (opened.*1) → files w !! fd = None) ∧
    (rc = 0 → take (Z.to_nat count) ports' = opened.*2 ∧ stderr w' = stderr w) ∧
    (rc = -1 → ∃ what e,
       what ∈ ["fp: socket"; "fp: bind"; "fp: getsockname"]%string ∧
       stderr w' = stderr w ++ [Err_perror what e]).
Proof.
  intros Hc Hports Hrun.
  destruct (find_free_ports_calls _ _ _ _ _ Hc Hports Hrun)
    as (opened & evs & H1 & H2 & H3 & H4 & H5 & H6 & H7 & H8 & H9 & H10).
  exists opened, evs. repeat split; try done; try by apply H9.
  intros Hrc. destruct (H10 Hrc) as (what & e & _ & Hin & Herr).
  by exists what, e.
Qed.

End Batch.

(** ** Range-constrained search *)

Section Range.

Variables count lo range start socktype family : Z.
Hypothesis lo_valid : 1 ≤ lo.
Hypothesis range_valid : 0 < range.
Hypothesis hi_valid : lo + range ≤ 65536.
Hypothesis start_valid : lo ≤ start < lo + range.

Lemma candidate_eq (i : Z) :
  0 ≤ i < range →
  candidate lo range start i = lo + (start - lo + i) mod range.
Proof.
  intros Hi. unfold candidate.
  rewrite (to_int_small (start - lo)) by lia.
  rewrite (to_int_small (start - lo + i)) by lia.
  rewrite Z.rem_mod_nonneg by lia.
  pose proof (Z.mod_pos_bound (start - lo + i) range range_valid).
  apply to_int_small. lia.
Qed.

Lemma candidate_bounds (i : Z) :
  0 ≤ i < range → lo ≤ candidate lo range start i < lo + range.
Proof.
  intros Hi. rewrite candidate_eq by done.
  pose proof (Z.mod_pos_bound (start - lo + i) range range_valid). lia.
Qed.

Lemma candidate_request (i : Z) :
  0 ≤ i < range →
  ntohs (ss_port (setup_addr family (candidate lo range start i)).1)
  = candidate lo range start i.
Proof.
  intros Hi. pose proof (candidate_bounds i Hi).
  rewrite setup_addr_port. apply to_uint16_small. lia.
Qed.

(** The goals left when the scan stops without a further probe. *)
Ltac scan_stops :=
  repeat split;
  first [ done | lia | apply Forall_nil_2
        | (intros ? ? Hk; by rewrite lookup_nil in Hk)
        | (intros ? Hm; simpl in Hm; lia)
        | by left | (right; lia) ].

Lemma scan_spec (n : nat) :
  ∀ (i found : Z) (ports : list Z) (w : world) r found' ports' w',
    0 ≤ i → i + Z.of_nat n ≤ range → 0 ≤ found →
    (Z.to_nat count ≤ length ports)%nat →
    scan n i found count lo range start socktype family ports w
    = (r, found', ports', w') →
    ∃ probes : list (Z * bool),
      trace w' = trace w ++ scan_events family socktype lo range start i probes
                         ++ (if r is Some _ then [EvSocket family socktype (-1)]
                             else []) ∧
      files w' = files w ∧ stdout w' = stdout w ∧ stderr w' = stderr w ∧
      length ports' = length ports ∧
      found' = found + Z.of_nat (length (hits lo range start i probes)) ∧
      (∀ k, (k < Z.to_nat found)%nat → ports' !! k = ports !! k) ∧
      (∀ k p, hits lo range start i probes !! k = Some p →
         ports' !! (Z.to_nat found + k)%nat = Some p) ∧
      (∀ m, (m < length probes)%nat →
         found + Z.of_nat (length (hits lo range start i (take m probes))) < count) ∧
      Forall (λ p, files w !! p.1 = None ∧ 0 ≤ p.1) probes ∧
      match r with
      | Some rc => rc = -1 ∧ (length probes < n)%nat ∧ found' < count
      | None => (length probes ≤ n)%nat ∧ (length probes = n ∨ count ≤ found')
      end.
Proof.
  induction n as [|n IH];
    intros i found ports w r found' ports' w' Hi Hn Hfound Hports Hrun;
    simpl in Hrun.
  { injection Hrun as <- <- <- <-. exists []. simpl.
    rewrite app_nil_r. scan_stops. }
  destruct ((i <? range) && (found <? count)) eqn:Hcond.
  2: { injection Hrun as <- <- <- <-. exists []. simpl.
       rewrite app_nil_r. scan_stops. }
  apply andb_true_iff in Hcond as [Hir Hfc].
  unfold sys_socket in Hrun.
  destruct (kernel w (ticks w)) as [e|pk] eqn:K1.
  - (* socket() fails: return -1 *)
    simpl in Hrun. injection Hrun as <- <- <- <-. exists []. simpl.
    scan_stops.
  - set (fd := lowest_free (files w)) in *.
    assert (files w !! fd = None) as Hfresh by apply lowest_free_fresh.
    assert (0 ≤ fd) as Hfd0 by apply lowest_free_nonneg.
    destruct (fd <? 0) eqn:Hneg; [lia|].
    set (port := candidate lo range start i) in *.
    assert (ntohs (ss_port (setup_addr family port).1) = port) as Hreq
      by (apply candidate_request; lia).
    assert (lo ≤ port < lo + range) as Hport by (apply candidate_bounds; lia).
    destruct (setup_addr family port) as [sa salen] eqn:SA. simpl in Hreq.
    unfold sys_bind in Hrun. simpl in Hrun.
    rewrite lookup_insert_eq, Hreq in Hrun.
    destruct (kernel w (S (ticks w))) as [e|pick] eqn:K2; simpl in Hrun.
    + (* bind() fails: next candidate *)
      unfold sys_close in Hrun. simpl in Hrun.
      rewrite !delete_insert_eq, delete_id in Hrun by done.
      apply IH in Hrun; [|lia|lia|lia|done].
      destruct Hrun as (probes & Htr & Hfs & Hout & Herr & Hl & Hf & Hbelow
                        & Hcells & Hpre & Hfds & Hr).
      simpl in Htr, Hfs, Hout, Herr, Hfds.
      exists ((fd, false) :: probes). simpl. fold port. rewrite SA.
      split; [rewrite Htr; simpl; by rewrite <- !app_assoc|].
      repeat split; try done.
      * intros [|m] Hm; simpl; [lia|]. apply Hpre. lia.
      * by apply Forall_cons_2.
      * destruct r as [rc|]; [|lia]. destruct Hr as (? & ? & ?).
        repeat split; [done|lia|done].
    + (* bind() succeeds: record the port *)
      destruct (port =? 0) eqn:Hp0; [lia|]. simpl in Hrun.
      unfold sys_close in Hrun. simpl in Hrun.
      rewrite !delete_insert_eq, delete_id in Hrun by done.
      apply IH in Hrun; [|lia|lia|lia|by rewrite array_set_length].
      destruct Hrun as (probes & Htr & Hfs & Hout & Herr & Hl & Hf & Hbelow
                        & Hcells & Hpre & Hfds & Hr).
      simpl in Htr, Hfs, Hout, Herr, Hfds.
      exists ((fd, true) :: probes). simpl. fold port. rewrite SA.
      split; [rewrite Htr; simpl; by rewrite <- !app_assoc|].
      split; [done|]. split; [done|]. split; [done|].
      split; [by rewrite Hl, array_set_length|].
      split; [lia|].
      split.
      { intros k Hk. rewrite Hbelow by lia.
        unfold array_set. apply list_lookup_insert_ne. lia. }
      split.
      { intros [|k] p Hp; simpl in Hp.
        - injection Hp as <-. rewrite Nat.add_0_r, Hbelow by lia.
          unfold array_set. apply list_lookup_insert_eq. lia.
        - replace (Z.to_nat found + S k)%nat with (Z.to_nat (found + 1) + k)%nat by lia.
          by apply Hcells. }
      split.
      { intros [|m] Hm; simpl; [lia|].
        specialize (Hpre m). lia. }
      split; [by apply Forall_cons_2|].
      destruct r as [rc|]; [|lia]. destruct Hr as (? & ? & ?).
      repeat split; [done|lia|lia].
Qed.

(** *** What the trace of a scan shows *)

Lemma seqZ_step (i : Z) (n : nat) :
  seqZ i (Z.of_nat (S n)) = i :: seqZ (i + 1) (Z.of_nat n).
Proof.
  rewrite seqZ_cons by lia. f_equal. f_equal; lia.
Qed.

Lemma probed_scan_events (probes : list (Z * bool)) :
  ∀ i, 0 ≤ i → i + Z.of_nat (length probes) ≤ range →
    probed (scan_events family socktype lo range start i probes)
    = candidate lo range start <$> seqZ i (Z.of_nat (length probes)).
Proof.
  induction probes as [|[fd ok] probes IH]; intros i Hi Hlen; [done|].
  simpl length. rewrite seqZ_step. simpl in *.
  rewrite candidate_request by lia.
  f_equal. apply IH; lia.
Qed.

Lemma bound_ports_scan_events (probes : list (Z * bool)) :
  ∀ i, bound_ports (scan_events family socktype lo range start i probes)
       = hits lo range start i probes.
Proof.
  induction probes as [|[fd ok] probes IH]; intros i; [done|].
  simpl. destruct ok; simpl; by rewrite IH.
Qed.

Lemma socket_calls_scan_events (probes : list (Z * bool)) :
  ∀ i, socket_calls (scan_events family socktype lo range start i probes)
       = length probes.
Proof.
  induction probes as [|[fd ok] probes IH]; intros i; [done|].
  simpl. by rewrite IH.
Qed.

Lemma hits_sublist (probes : list (Z * bool)) :
  ∀ i, hits lo range start i probes
       `sublist_of` (candidate lo range start <$> seqZ i (Z.of_nat (length probes))).
Proof.
  induction probes as [|[fd ok] probes IH]; intros i; [done|].
  simpl length. rewrite seqZ_step. simpl.
  destruct ok; simpl.
  - apply sublist_skip, IH.
  - apply sublist_cons, IH.
Qed.

Lemma peak_open_scan_events (probes : list (Z * bool)) :
  ∀ i tail,
    Forall (λ p, 0 ≤ p.1) probes →
    (peak_open [] tail ≤ 1)%nat →
    (peak_open [] (scan_events family socktype lo range start i probes ++ tail) ≤ 1)%nat.
Proof.
  induction probes as [|[fd ok] probes IH]; intros i tail Hfds Htail; [done|].
  apply Forall_cons in Hfds as [Hfd Hfds]. simpl in Hfd.
  simpl. destruct (fd <? 0) eqn:Hneg; [lia|]. simpl.
  rewrite filter_cons_False, filter_nil by (intros Hne; by apply Hne).
  specialize (IH (i + 1) tail Hfds Htail). lia.
Qed.

Lemma still_open_scan_events (probes : list (Z * bool)) :
  ∀ i, Forall (λ p, 0 ≤ p.1) probes →
    still_open (scan_events family socktype lo range start i probes) = [].
Proof.
  unfold still_open.
  induction probes as [|[fd ok] probes IH]; intros i Hfds; [done|].
  apply Forall_cons in Hfds as [Hfd Hfds]. simpl in Hfd.
  simpl. destruct (fd <? 0) eqn:Hneg; [lia|]. simpl.
  rewrite filter_cons_False, filter_nil by (intros Hne; by apply Hne).
  by apply IH.
Qed.

Lemma probes_while_short_scan_events (probes : list (Z * bool)) :
  ∀ i found tail,
    (∀ m, (m < length probes)%nat →
       found + Z.of_nat (length (hits lo range start i (take m probes))) < count) →
    probes_while_short count
      (found + Z.of_nat (length (hits lo range start i probes))) tail = true →
    probes_while_short count found
      (scan_events family socktype lo range start i probes ++ tail) = true.
Proof.
  induction probes as [|[fd ok] probes IH]; intros i found tail Hpre Htail.
  { simpl in *. by rewrite Z.add_0_r in Htail. }
  simpl.
  pose proof (Hpre 0%nat) as H0. simpl in H0.
  apply andb_true_iff. split; [lia|].
  destruct ok; simpl.
  - apply IH.
    + intros m Hm. specialize (Hpre (S m)). simpl in Hpre. lia.
    + simpl in Htail.
      replace (found + 1 + Z.of_nat (length (hits lo range start (i + 1) probes)))
        with (found + Z.of_nat (S (length (hits lo range start (i + 1) probes))))
        by lia.
      done.
  - apply IH.
    + intros m Hm. specialize (Hpre (S m)). simpl in Hpre. lia.
    + done.
Qed.

(** *** The candidate sequence is a bijection onto the interval *)

Lemma candidate_inj (i j : Z) :
  0 ≤ i < range → 0 ≤ j < range →
  candidate lo range start i = candidate lo range start j → i = j.
Proof.
  intros Hi Hj. rewrite !candidate_eq by done. intros Heq.
  pose proof (Z.div_mod (start - lo + i) range) as Di.
  pose proof (Z.div_mod (start - lo + j) range) as Dj.
  assert ((start - lo + i) mod range = (start - lo + j) mod range) as Hm by lia.
  rewrite Hm in Di.
  set (qi := (start - lo + i) / range) in *.
  set (qj := (start - lo + j) / range) in *.
  assert (range * (qi - qj) = i - j) as Hd by lia.
  assert (qi - qj = 0) by nia. lia.
Qed.

Lemma candidate_surj (p : Z) :
  lo ≤ p < lo + range →
  ∃ i, 0 ≤ i < range ∧ candidate lo range start i = p.
Proof.
  intros Hp. exists ((p - start) mod range).
  pose proof (Z.mod_pos_bound (p - start) range range_valid) as Hb.
  split; [done|].
  rewrite candidate_eq by done.
  rewrite Z.add_mod_idemp_r by lia.
  replace (start - lo + (p - start)) with (p - lo) by lia.
  rewrite Z.mod_small; lia.
Qed.

Lemma candidates_NoDup (n : Z) :
  n ≤ range → NoDup (candidate lo range start <$> seqZ 0 n).
Proof.
  intros Hn. apply NoDup_fmap_2_strong; [|apply NoDup_seqZ].
  intros i j Hi Hj. apply elem_of_seqZ in Hi, Hj.
  apply candidate_inj; lia.
Qed.

Lemma candidates_permutation :
  candidate lo range start <$> seqZ 0 range ≡ₚ seqZ lo range.
Proof.
  apply NoDup_Permutation; [by apply candidates_NoDup|apply NoDup_seqZ|].
  intros p. rewrite list_elem_of_fmap, elem_of_seqZ. split.
  - intros (i & -> & Hi). apply elem_of_seqZ in Hi.
    apply candidate_bounds. lia.
  - intros Hp. destruct (candidate_surj p Hp) as (i & Hi & <-).
    exists i. split; [done|]. apply elem_of_seqZ. lia.
Qed.

Lemma hits_at_most_count (probes : list (Z * bool)) :
  ∀ i found,
    found ≤ count →
    (∀ m, (m < length probes)%nat →
       found + Z.of_nat (length (hits lo range start i (take m probes))) < count) →
    found + Z.of_nat (length (hits lo range start i probes)) ≤ count.
Proof.
  induction probes as [|[fd ok] probes IH]; intros i found Hf Hpre.
  { simpl. lia. }
  pose proof (Hpre 0%nat) as H0. simpl in H0.
  simpl. rewrite length_app.
  destruct ok; simpl.
  - specialize (IH (i + 1) (found + 1)).
    assert (found + 1 + Z.of_nat (length (hits lo range start (i + 1) probes)) ≤ count);
      [|lia].
    apply IH; [lia|].
    intros m Hm. specialize (Hpre (S m)). simpl in Hpre. lia.
  - apply IH; [lia|].
    intros m Hm. specialize (Hpre (S m)). simpl in Hpre. lia.
Qed.

End Range.

(** The range size and the starting offset that [find_free_ports_range]
    computes, for a valid interval and any draw of [rand]. *)
Lemma range_size_valid (lo hi : Z) :
  1 ≤ lo ≤ hi ∧ hi ≤ 65535 →
  to_int (to_int (hi - lo) + 1) = hi - lo + 1.
Proof.
  intros H. rewrite (to_int_small (hi - lo)) by lia.
  apply to_int_small. lia.
Qed.

Lemma start_offset_valid (lo hi r : Z) :
  1 ≤ lo ≤ hi ∧ hi ≤ 65535 →
  lo ≤ to_int (to_unsigned (to_unsigned lo
                + to_unsigned r mod to_unsigned (hi - lo + 1))) ≤ hi.
Proof.
  intros H.
  rewrite (to_unsigned_small lo), (to_unsigned_small (hi - lo + 1)) by lia.
  pose proof (Z.mod_pos_bound (to_unsigned r) (hi - lo + 1)) as Hb.
  rewrite to_unsigned_small by lia.
  rewrite to_int_small by lia. lia.
Qed.

(** The whole of [find_free_ports_range]. *)
Lemma find_free_ports_range_spec (ports : list Z) (count lo hi socktype family : Z)
    (w : world) rc ports' w' :
  1 ≤ lo ≤ hi ∧ hi ≤ 65535 → 0 ≤ count →
  (Z.to_nat count ≤ length ports)%nat →
  find_free_ports_range ports count lo hi socktype family w = (rc, ports', w') →
  ∃ (start : Z) (probes : list (Z * bool)) (evs : list event),
    lo ≤ start ≤ hi ∧
    range_run family socktype count lo (hi - lo + 1) start rc probes evs ∧
    trace w' = trace w ++ evs ∧
    files w' = files w ∧ stdout w' = stdout w ∧ stderr w' = stderr w ∧
    length ports' = length ports ∧
    take (length (hits lo (hi - lo + 1) start 0 probes)) ports'
    = hits lo (hi - lo + 1) start 0 probes ∧
    (∀ m, (m < length probes)%nat →
       Z.of_nat (length (hits lo (hi - lo + 1) start 0 (take m probes))) < count) ∧
    Forall (λ p, files w !! p.1 = None ∧ 0 ≤ p.1) probes ∧
    Z.of_nat (length probes) ≤ hi - lo + 1.
Proof.
  intros Hv Hc Hports Hrun. unfold find_free_ports_range in Hrun.
  rewrite range_size_valid in Hrun by done.
  unfold rand in Hrun.
  set (r := entropy w (draws w) mod (RAND_MAX + 1)) in *.
  pose proof (start_offset_valid lo hi r Hv) as Hstart.
  set (start := to_int (to_unsigned (to_unsigned lo
                 + to_unsigned r mod to_unsigned (hi - lo + 1)))) in *.
  set (w0 := World _ _ _ _ _ _ _ _ _) in Hrun.
  destruct (scan (Z.to_nat (hi - lo + 1)) 0 0 count lo (hi - lo + 1) start
                 socktype family ports w0) as [[[res found] ports1] w1] eqn:Hscan.
  apply scan_spec in Hscan; [|lia..|done].
  destruct Hscan as (probes & Htr & Hfs & Hout & Herr & Hl & Hf & _
                     & Hcells & Hpre & Hfds & Hres).
  simpl in Htr, Hfs, Hout, Herr, Hfds.
  assert (Z.of_nat (length (hits lo (hi - lo + 1) start 0 probes)) ≤ count) as Hle.
  { pose proof (hits_at_most_count count lo (hi - lo + 1) start probes 0 0 Hc Hpre).
    lia. }
  exists start, probes.
  assert (take (length (hits lo (hi - lo + 1) start 0 probes)) ports1
          = hits lo (hi - lo + 1) start 0 probes) as Htake.
  { apply list_eq. intros k.
    destruct (hits lo (hi - lo + 1) start 0 probes !! k) as [p|] eqn:E.
    - rewrite lookup_take_lt by (by apply lookup_lt_Some in E).
      by apply (Hcells k p).
    - apply lookup_take_ge. by apply lookup_ge_None in E. }
  destruct res as [rc0|].
  - destruct Hres as (-> & Hlt & Hfc). injection Hrun as <- <- <-.
    eexists. split; [done|].
    split; [apply Range_socket_failed; lia|].
    repeat split; first [done | lia | (intros m Hm; specialize (Hpre m Hm); lia)].
  - destruct Hres as (Hn & Hstop).
    destruct (found =? count) eqn:Hfc; injection Hrun as <- <- <-.
    + eexists. split; [done|].
      split; [apply Range_found; lia|].
      rewrite app_nil_r in Htr.
      repeat split; first [done | lia | (intros m Hm; specialize (Hpre m Hm); lia)].
    + eexists. split; [done|].
      split; [apply Range_exhausted; lia|].
      rewrite app_nil_r in Htr.
      repeat split; first [done | lia | (intros m Hm; specialize (Hpre m Hm); lia)].
Qed.

(** ** Traces *)

Lemma events_since_app (w w' : world) (evs : list event) :
  trace w' = trace w ++ evs → events_since w w' = evs.
Proof. intros H. unfold events_since. rewrite H. apply drop_app_length. Qed.

Lemma probed_app (l k : list event) : probed (l ++ k) = probed l ++ probed k.
Proof.
  induction l as [|e l IH]; [done|].
  destruct e; simpl; by rewrite IH.
Qed.

Lemma bound_ports_app (l k : list event) :
  bound_ports (l ++ k) = bound_ports l ++ bound_ports k.
Proof.
  induction l as [|e l IH]; [done|].
  destruct e as [| ? ? [?|] | |]; simpl; by rewrite IH.
Qed.

Lemma socket_calls_app (l k : list event) :
  socket_calls (l ++ k) = (socket_calls l + socket_calls k)%nat.
Proof.
  induction l as [|e l IH]; [done|].
  destruct e; simpl; by rewrite IH.
Qed.

Lemma candidate_port_i (lo hi start i : Z) :
  1 ≤ lo ≤ hi ∧ hi ≤ 65535 → lo ≤ start ≤ hi → 0 ≤ i < hi - lo + 1 →
  candidate lo (hi - lo + 1) start i = port_i lo hi start i.
Proof. intros Hv Hs Hi. unfold port_i. apply candidate_eq; lia. Qed.

Lemma candidates_port_i (lo hi start n : Z) :
  1 ≤ lo ≤ hi ∧ hi ≤ 65535 → lo ≤ start ≤ hi → n ≤ hi - lo + 1 →
  candidate lo (hi - lo + 1) start <$> seqZ 0 n = port_i lo hi start <$> seqZ 0 n.
Proof.
  intros Hv Hs Hn. apply list_fmap_ext. intros k i Hi.
  apply lookup_seqZ in Hi as [-> Hk].
  apply candidate_port_i; [done|done|lia].
Qed.

(** C4: for every [lo <= hi] in [1, 65535] and every starting offset in
    [lo, hi], the candidate sequence [lo + ((start - lo + i) mod (hi - lo + 1))],
    [i = 0 .. hi - lo], is what the loop computes and is a bijection onto
    [lo, hi]; the scan probes the candidates in that order, makes at most
    [hi - lo + 1] probes, makes a probe only while fewer than [count] ports
    are found, and has probed the whole interval when it ends with fewer. *)
Theorem candidate_sequence_covers_interval (lo hi start : Z) :
  1 ≤ lo ≤ hi ∧ hi ≤ 65535 → lo ≤ start ≤ hi →
  (∀ i, 0 ≤ i ≤ hi - lo →
     candidate lo (hi - lo + 1) start i = port_i lo hi start i) ∧
  port_i lo hi start <$> seqZ 0 (hi - lo + 1) ≡ₚ seqZ lo (hi - lo + 1) ∧
  (∀ i j, 0 ≤ i ≤ hi - lo → 0 ≤ j ≤ hi - lo →
     port_i lo hi start i = port_i lo hi start j → i = j) ∧
  (∀ p, lo ≤ p ≤ hi → ∃ i, 0 ≤ i ≤ hi - lo ∧ port_i lo hi start i = p) ∧
  ∀ count socktype family ports w r found ports' w',
    0 ≤ count → (Z.to_nat count ≤ length ports)%nat →
    scan (Z.to_nat (hi - lo + 1)) 0 0 count lo (hi - lo + 1) start
         socktype family ports w = (r, found, ports', w') →
    (socket_calls (events_since w w') ≤ Z.to_nat (hi - lo + 1))%nat ∧
    probed (events_since w w')
    = port_i lo hi start <$> seqZ 0 (Z.of_nat (length (probed (events_since w w')))) ∧
    probes_while_short count 0 (events_since w w') = true ∧
    (r = None → found < count →
     probed (events_since w w') = port_i lo hi start <$> seqZ 0 (hi - lo + 1)).
Proof.
  intros Hv Hs.
  assert (1 ≤ lo) as H1 by lia.
  assert (0 < hi - lo + 1) as H2 by lia.
  assert (lo + (hi - lo + 1) ≤ 65536) as H3 by lia.
  assert (lo ≤ start < lo + (hi - lo + 1)) as H4 by lia.
  split; [intros i Hi; apply candidate_port_i; [done|done|lia]|].
  split.
  { rewrite <- candidates_port_i by (done || lia).
    by apply candidates_permutation. }
  split.
  { intros i j Hi Hj. rewrite <- !candidate_port_i by (done || lia).
    apply candidate_inj; lia. }
  split.
  { intros p Hp.
    assert (∃ i, 0 ≤ i < hi - lo + 1 ∧ candidate lo (hi - lo + 1) start i = p)
      as (i & Hi & Hc) by (apply candidate_surj; lia).
    exists i. split; [lia|]. rewrite <- candidate_port_i by (done || lia). done. }
  intros count socktype family ports w r found ports' w' Hc Hports Hrun.
  apply scan_spec in Hrun; try (done || lia).
  destruct Hrun as (probes & Htr & _ & _ & _ & _ & Hf & _ & _ & Hpre & _ & Hr).
  rewrite (events_since_app _ _ _ Htr).
  assert (Z.of_nat (length probes) ≤ hi - lo + 1) as Hlen
    by (destruct r as [?|]; lia).
  assert (probed (scan_events family socktype lo (hi - lo + 1) start 0 probes
                  ++ (if r is Some _ then [EvSocket family socktype (-1)] else []))
          = port_i lo hi start <$> seqZ 0 (Z.of_nat (length probes))) as Hprobed.
  { rewrite probed_app, probed_scan_events by (done || lia).
    rewrite candidates_port_i by (done || lia).
    destruct r; simpl; by rewrite app_nil_r. }
  split.
  { rewrite socket_calls_app, socket_calls_scan_events.
    destruct r as [?|]; simpl; lia. }
  split.
  { rewrite Hprobed at 1. by rewrite Hprobed, length_fmap, length_seqZ, Nat2Z.id. }
  split.
  { apply probes_while_short_scan_events; [done|].
    destruct r as [?|]; [|done]. simpl. lia. }
  intros -> Hfc. rewrite Hprobed.
  destruct Hr as (_ & [Hn|Hge]); [|lia].
  rewrite Hn. f_equal. f_equal. lia.
Qed.

Lemma hits_in_interval (lo hi start : Z) (probes : list (Z * bool)) :
  1 ≤ lo ≤ hi ∧ hi ≤ 65535 → lo ≤ start ≤ hi →
  Z.of_nat (length probes) ≤ hi - lo + 1 →
  NoDup (hits lo (hi - lo + 1) start 0 probes) ∧
  Forall (λ p, lo ≤ p ≤ hi) (hits lo (hi - lo + 1) start 0 probes).
Proof.
  intros Hv Hs Hlen.
  pose proof (hits_sublist lo (hi - lo + 1) start probes 0) as Hsub.
  split.
  - eapply sublist_NoDup; [|exact Hsub].
    apply candidates_NoDup; lia.
  - apply Forall_forall. intros p Hp.
    eapply elem_of_sublist in Hp; [|exact Hsub].
    apply list_elem_of_fmap in Hp as (i & -> & Hi).
    apply elem_of_seqZ in Hi.
    assert (lo ≤ candidate lo (hi - lo + 1) start i < lo + (hi - lo + 1))
      by (apply candidate_bounds; lia).
    lia.
Qed.

(** C2: for every valid [(count, lo, hi)] with [hi - lo + 1 >= count], every
    draw of the starting offset and every outcome of the probes (both are
    part of the world [w]), when the range-constrained search succeeds the
    [count] ports it returns lie in [lo, hi] and are pairwise distinct. *)
Theorem range_ports_in_interval_distinct (count lo hi socktype family : Z)
    (ports : list Z) (w : world) (ports' : list Z) (w' : world) :
  1 ≤ count ≤ MAX_PORTS →
  1 ≤ lo ≤ hi ∧ hi ≤ 65535 →
  count ≤ hi - lo + 1 →
  length ports = Z.to_nat MAX_PORTS →
  find_free_ports_range ports count lo hi socktype family w = (0, ports', w') →
  length (take (Z.to_nat count) ports') = Z.to_nat count ∧
  Forall (λ p, lo ≤ p ≤ hi) (take (Z.to_nat count) ports') ∧
  NoDup (take (Z.to_nat count) ports').
Proof.
  intros Hc Hv Hsize Hports Hrun.
  apply find_free_ports_range_spec in Hrun; [|done|lia|lia].
  destruct Hrun as (start & probes & evs & Hstart & Hshape & _ & _ & _ & _ & _
                    & Htake & _ & _ & Hlen).
  inversion Hshape as [probes' Hfound| |]; subst.
  rewrite Nat2Z.id, Htake.
  split; [done|].
  destruct (hits_in_interval lo hi start probes Hv Hstart Hlen) as [Hnd Hin].
  done.
Qed.

(** ** The contract of the ephemeral allocator on the opening phase *)

Lemma existsb_false_elem {A} (f : A → bool) (l : list A) (x : A) :
  existsb f l = false → x ∈ l → f x = false.
Proof.
  intros Hf Hx. destruct (f x) eqn:E; [|done].
  assert (existsb f l = true) as Ht; [|congruence].
  apply existsb_exists. exists x. split; [by apply list_elem_of_In|done].
Qed.

Lemma contract_opens (family socktype : Z) (opened : list (Z * Z)) :
  ∀ (fs : gmap Z open_file) (rest : list event),
    NoDup (opened.*1) →
    Forall (λ s, 0 ≤ s.1 ∧ 0 ≤ s.2 < 65536) opened →
    (∀ fd, fd ∈ (opened.*1) → fs !! fd = None) →
    kernel_contract fs (flat_map (open_events family socktype) opened ++ rest) = true →
    NoDup (opened.*2) ∧
    ∀ p, p ∈ (opened.*2) →
      1 ≤ p ≤ 65535 ∧
      ∀ fd a, fs !! fd ≠ Some (Socket family socktype a p).
Proof.
  induction opened as [|[fd p] opened IH]; intros fs rest Hnd Hrng Hfr Hk.
  { split; [apply NoDup_nil_2|]. intros p Hp. by apply elem_of_nil in Hp. }
  simpl in Hnd. apply NoDup_cons in Hnd as [Hni Hnd].
  apply Forall_cons in Hrng as [[Hfd _] Hrng]. simpl in Hfd.
  assert (fs !! fd = None) as Hfresh by (apply Hfr; simpl; apply elem_of_cons; by left).
  simpl in Hk.
  destruct (fd <? 0) eqn:Hneg; [lia|].
  rewrite setup_addr_zero_request in Hk. simpl in Hk.
  rewrite lookup_insert_eq in Hk.
  rewrite insert_insert_eq in Hk.
  apply andb_true_iff in Hk as [Hok Hk].
  apply andb_true_iff in Hok as [Hb Hheld].
  apply negb_true_iff in Hheld.
  set (fs2 := <[fd := Socket family socktype (ss_addr (setup_addr family 0).1) p]> fs) in *.
  apply IH in Hk; [|done|done|].
  2: { intros x Hx. unfold fs2.
       rewrite lookup_insert_ne by (intros ->; done).
       apply Hfr. simpl. apply elem_of_cons. by right. }
  destruct Hk as [Hnd2 Hports].
  assert (∀ x o, fs !! x = Some o → fs2 !! x = Some o) as Hsub.
  { intros x o Hx. unfold fs2. rewrite lookup_insert_ne; [done|].
    intros ->. congruence. }
  split.
  - simpl. apply NoDup_cons_2; [|done].
    intros Hin. destruct (Hports p Hin) as [_ Hfree].
    apply (Hfree fd (ss_addr (setup_addr family 0).1)).
    unfold fs2. apply lookup_insert_eq.
  - intros q Hq. simpl in Hq. apply elem_of_cons in Hq as [->|Hq].
    + split; [lia|]. intros x a Hx.
      assert (x ≠ fd) as Hne by (intros ->; congruence).
      pose proof (existsb_false_elem _ _ (x, Socket family socktype a p) Hheld) as Hf.
      unfold holds_port in Hf. simpl in Hf.
      rewrite !Z.eqb_refl in Hf. simpl in Hf.
      assert (true = false) as Habs; [|done].
      apply Hf. apply elem_of_map_to_list.
      by rewrite lookup_insert_ne.
    + destruct (Hports q Hq) as [Hr Hfree]. split; [done|].
      intros x a Hx. apply (Hfree x a). by apply Hsub.
Qed.

(** C1: for every [count] in [1, 1024], whenever the unconstrained batch
    acquisition succeeds, under the contract of the ephemeral allocator (a bind
    to port 0 is given a port of [1, 65535] that no open socket of the same
    family and type holds), the result has exactly [count] elements, pairwise
    distinct, each in [1, 65535]. *)
Theorem batch_ports_count_distinct_valid (count socktype family : Z)
    (ports : list Z) (w : world) (ports' : list Z) (w' : world) :
  1 ≤ count ≤ MAX_PORTS →
  length ports = Z.to_nat MAX_PORTS →
  find_free_ports ports count socktype family w = (0, ports', w') →
  kernel_contract (files w) (events_since w w') = true →
  length (take (Z.to_nat count) ports') = Z.to_nat count ∧
  NoDup (take (Z.to_nat count) ports') ∧
  Forall (λ p, 1 ≤ p ≤ 65535) (take (Z.to_nat count) ports').
Proof.
  intros Hc Hports Hrun Hk.
  apply find_free_ports_spec in Hrun; [|lia|lia].
  destruct Hrun as (opened & evs & Hshape & Htr & _ & _ & Hl & Hnd & Hrng & Hfr
                    & Hok & _).
  destruct (Hok eq_refl) as [Htake _].
  rewrite (events_since_app _ _ _ Htr) in Hk.
  inversion Hshape as [opened' Hlen| | |]; subst.
  apply contract_opens in Hk; [|done..].
  destruct Hk as [Hnd2 Hvalid].
  rewrite Htake.
  split; [rewrite length_fmap; lia|].
  split; [done|].
  apply Forall_forall. intros p Hp. by apply Hvalid.
Qed.

Lemma batch_ports_witness :
  let r := find_free_ports fresh_array 3 SOCK_STREAM AF_INET
                           (boot generous (fixed_draw 0)) in
  r.1.1 = 0 ∧
  take 3 r.1.2 = [40001; 40003; 40005] ∧
  NoDup (take 3 r.1.2) ∧
  Forall (λ p, 1 ≤ p ≤ 65535) (take 3 r.1.2).
Proof.
  intros r.
  split; [vm_compute; reflexivity|].
  split; [vm_compute; reflexivity|].
  apply (batch_ports_count_distinct_valid 3 SOCK_STREAM AF_INET fresh_array
           (boot generous (fixed_draw 0)) r.1.2 r.2).
  - unfold MAX_PORTS. lia.
  - vm_compute. reflexivity.
  - vm_compute. reflexivity.
  - vm_compute. reflexivity.
Defined.

Lemma range_ports_witness :
  let r := find_free_ports_range fresh_array 3 8000 8004 SOCK_STREAM AF_INET
                                 (boot generous (fixed_draw 7)) in
  r.1.1 = 0 ∧
  take 3 r.1.2 = [8002; 8003; 8004] ∧
  Forall (λ p, 8000 ≤ p ≤ 8004) (take 3 r.1.2) ∧
  NoDup (take 3 r.1.2).
Proof.
  intros r.
  split; [vm_compute; reflexivity|].
  split; [vm_compute; reflexivity|].
  apply (range_ports_in_interval_distinct 3 8000 8004 SOCK_STREAM AF_INET
           fresh_array (boot generous (fixed_draw 7)) r.1.2 r.2).
  - unfold MAX_PORTS. lia.
  - lia.
  - lia.
  - vm_compute. reflexivity.
  - vm_compute. reflexivity.
Defined.

Lemma candidate_sequence_witness :
  port_i 8000 8004 8002 <$> seqZ 0 (8004 - 8000 + 1) ≡ₚ seqZ 8000 (8004 - 8000 + 1) ∧
  let r := scan (Z.to_nat (8004 - 8000 + 1)) 0 0 2 8000 (8004 - 8000 + 1) 8002
                SOCK_STREAM AF_INET fresh_array (boot all_busy (fixed_draw 0)) in
  probed (events_since (boot all_busy (fixed_draw 0)) r.2)
  = port_i 8000 8004 8002 <$> seqZ 0 (8004 - 8000 + 1).
Proof.
  destruct (candidate_sequence_covers_interval 8000 8004 8002)
    as (_ & Hperm & _ & _ & Hscan); [lia|lia|].
  split; [exact Hperm|].
  intros r.
  apply (Hscan 2 SOCK_STREAM AF_INET fresh_array (boot all_busy (fixed_draw 0))
               r.1.1.1 r.1.1.2 r.1.2 r.2).
  - lia.
  - vm_compute. lia.
  - vm_compute. reflexivity.
  - vm_compute. reflexivity.
  - vm_compute. reflexivity.
Defined.

(** ** Descriptors that a trace leaves open *)

Lemma track_opens (family socktype : Z) (opened : list (Z * Z)) :
  ∀ held, Forall (λ s, 0 ≤ s.1 ∧ 0 ≤ s.2 < 65536) opened →
    foldl track_open held (flat_map (open_events family socktype) opened)
    = held ++ opened.*1.
Proof.
  induction opened as [|[fd p] opened IH]; intros held Hrng; simpl.
  { by rewrite app_nil_r. }
  apply Forall_cons in Hrng as [[Hfd _] Hrng]. simpl in Hfd.
  destruct (fd <? 0) eqn:Hneg; [lia|].
  rewrite IH by done. by rewrite <- app_assoc.
Qed.

Lemma track_reads (l : list (Z * Z)) :
  ∀ held, foldl track_open held (map read_event l) = held.
Proof. induction l as [|s l IH]; intros held; simpl; [done|apply IH]. Qed.

Lemma track_closes (cl : list Z) :
  ∀ held, (∀ x, x ∈ held → x ∈ cl) →
    foldl track_open held (map EvClose cl) = [].
Proof.
  induction cl as [|c cl IH]; intros held Hsub; simpl.
  { destruct held as [|x held]; [done|].
    specialize (Hsub x). rewrite elem_of_nil in Hsub.
    exfalso. apply Hsub. apply elem_of_cons. by left. }
  apply IH. intros x Hx. apply list_elem_of_filter in Hx as [Hne Hx].
  apply Hsub in Hx. apply elem_of_cons in Hx as [->|Hx]; done.
Qed.

Lemma still_open_batch_run (family socktype count rc : Z)
    (opened : list (Z * Z)) (evs : list event) :
  Forall (λ s, 0 ≤ s.1 ∧ 0 ≤ s.2 < 65536) opened →
  batch_run family socktype count rc opened evs →
  still_open evs = [].
Proof.
  intros Hrng Hshape. unfold still_open.
  destruct Hshape as [opened _|opened _|opened fd _ Hfd|opened m s _ _];
    rewrite foldl_app, track_opens by done; simpl.
  - rewrite foldl_app, track_reads, map_close_event. by apply track_closes.
  - rewrite map_close_event. by apply track_closes.
  - destruct (fd <? 0) eqn:Hneg; [lia|].
    rewrite foldl_app, map_close_event.
    change [EvClose fd] with (map EvClose [fd]). rewrite <- foldl_app, <- map_app.
    by apply track_closes.
  - rewrite foldl_app, track_reads. simpl.
    rewrite map_close_event. by apply track_closes.
Qed.

(** C5: every socket opened by either acquisition routine is closed before
    the routine returns, whatever the kernel answers to each call (success,
    failure of [socket], of [bind] or of [getsockname]): the descriptor table
    after the call is the table before it, and the trace of the call leaves no
    descriptor open. *)
Theorem sockets_all_closed :
  (∀ (ports : list Z) (count socktype family : Z) (w : world),
     0 ≤ count ≤ MAX_PORTS → (Z.to_nat count ≤ length ports)%nat →
     let w' := (find_free_ports ports count socktype family w).2 in
     files w' = files w ∧ dom (files w') = dom (files w) ∧
     still_open (events_since w w') = []) ∧
  (∀ (ports : list Z) (count lo hi socktype family : Z) (w : world),
     1 ≤ lo ≤ hi ∧ hi ≤ 65535 → 0 ≤ count → (Z.to_nat count ≤ length ports)%nat →
     let w' := (find_free_ports_range ports count lo hi socktype family w).2 in
     files w' = files w ∧ dom (files w') = dom (files w) ∧
     still_open (events_since w w') = []).
Proof.
  split.
  - intros ports count socktype family w Hc Hports.
    destruct (find_free_ports ports count socktype family w) as [[rc ports'] w'] eqn:Hrun.
    simpl. apply find_free_ports_spec in Hrun; [|done..].
    destruct Hrun as (opened & evs & Hshape & Htr & Hfs & _ & _ & _ & Hrng & _).
    rewrite (events_since_app _ _ _ Htr), Hfs.
    split; [done|]. split; [done|].
    by eapply still_open_batch_run.
  - intros ports count lo hi socktype family w Hv Hc Hports.
    destruct (find_free_ports_range ports count lo hi socktype family w)
      as [[rc ports'] w'] eqn:Hrun.
    simpl. apply find_free_ports_range_spec in Hrun; [|done..].
    destruct Hrun as (start & probes & evs & _ & Hshape & Htr & Hfs & _ & _ & _
                      & _ & _ & Hfds & _).
    rewrite (events_since_app _ _ _ Htr), Hfs.
    split; [done|]. split; [done|].
    assert (Forall (λ p : Z * bool, 0 ≤ p.1) probes) as Hnn.
    { eapply Forall_impl; [exact Hfds|]. by intros p [_ ?]. }
    destruct Hshape as [probes _|probes _ _|probes _ _].
    + by apply still_open_scan_events.
    + by apply still_open_scan_events.
    + unfold still_open. rewrite foldl_app.
      fold (still_open (scan_events family socktype lo (hi - lo + 1) start 0 probes)).
      by rewrite still_open_scan_events.
Qed.

Lemma sockets_all_closed_witness :
  files (find_free_ports fresh_array 3 SOCK_DGRAM AF_INET6
           (boot (grants_first 3) (fixed_draw 0))).2 = std_files ∧
  files (find_free_ports_range fresh_array 2 8000 8004 SOCK_STREAM AF_INET
           (boot (grants_first 3) (fixed_draw 7))).2 = std_files.
Proof.
  destruct sockets_all_closed as [Hbatch Hrange].
  split.
  - apply (Hbatch fresh_array 3 SOCK_DGRAM AF_INET6
                  (boot (grants_first 3) (fixed_draw 0))).
    + unfold MAX_PORTS. lia.
    + vm_compute. lia.
  - apply (Hrange fresh_array 2 8000 8004 SOCK_STREAM AF_INET
                  (boot (grants_first 3) (fixed_draw 7))).
    + lia.
    + lia.
    + vm_compute. lia.
Defined.

(** C8: during the range-constrained search at most one probe socket is open
    at any time: the trace of the call is a sequence of probes, each a
    [socket], a [bind] and the [close] of that same descriptor (whether the
    [bind] succeeded or not), possibly ended by a [socket] that fails. *)
Theorem range_one_socket_at_a_time (ports : list Z)
    (count lo hi socktype family : Z) (w : world) :
  1 ≤ lo ≤ hi ∧ hi ≤ 65535 → 0 ≤ count → (Z.to_nat count ≤ length ports)%nat →
  let r := find_free_ports_range ports count lo hi socktype family w in
  (peak_open [] (events_since w r.2) ≤ 1)%nat ∧
  ∃ (start : Z) (probes : list (Z * bool)),
    Forall (λ p, 0 ≤ p.1) probes ∧
    (events_since w r.2
     = scan_events family socktype lo (hi - lo + 1) start 0 probes
     ∨ events_since w r.2
       = scan_events family socktype lo (hi - lo + 1) start 0 probes
         ++ [EvSocket family socktype (-1)]).
Proof.
  intros Hv Hc Hports.
  destruct (find_free_ports_range ports count lo hi socktype family w)
    as [[rc ports'] w'] eqn:Hrun.
  simpl. apply find_free_ports_range_spec in Hrun; [|done..].
  destruct Hrun as (start & probes & evs & _ & Hshape & Htr & _ & _ & _ & _
                    & _ & _ & Hfds & _).
  rewrite (events_since_app _ _ _ Htr).
  assert (Forall (λ p : Z * bool, 0 ≤ p.1) probes) as Hnn.
  { eapply Forall_impl; [exact Hfds|]. by intros p [_ ?]. }
  destruct Hshape as [probes _|probes _ _|probes _ _].
  - split.
    + rewrite <- (app_nil_r (scan_events _ _ _ _ _ _ _)).
      apply peak_open_scan_events; [done|simpl; lia].
    + exists start, probes. split; [done|by left].
  - split.
    + rewrite <- (app_nil_r (scan_events _ _ _ _ _ _ _)).
      apply peak_open_scan_events; [done|simpl; lia].
    + exists start, probes. split; [done|by left].
  - split.
    + apply peak_open_scan_events; [done|simpl; lia].
    + exists start, probes. split; [done|by right].
Qed.

Lemma range_one_socket_witness :
  (peak_open []
     (events_since (boot (grants_first 3) (fixed_draw 7))
        (find_free_ports_range fresh_array 2 8000 8004 SOCK_STREAM AF_INET
           (boot (grants_first 3) (fixed_draw 7))).2) ≤ 1)%nat.
Proof.
  apply (range_one_socket_at_a_time fresh_array 2 8000 8004 SOCK_STREAM AF_INET
           (boot (grants_first 3) (fixed_draw 7))).
  - lia.
  - lia.
  - vm_compute. lia.
Defined.

(** ** The order of the phases of the batch acquisition *)

Lemma reads_follow_binds_opens (family socktype count : Z) (opened : list (Z * Z)) :
  ∀ n rest,
    reads_follow_binds count n (flat_map (open_events family socktype) opened ++ rest)
    = reads_follow_binds count (n + Z.of_nat (length opened)) rest.
Proof.
  induction opened as [|s opened IH]; intros n rest; simpl.
  { by rewrite Z.add_0_r. }
  rewrite IH. f_equal. lia.
Qed.

Lemma reads_follow_binds_reads (count : Z) (l : list (Z * Z)) :
  ∀ rest, reads_follow_binds count count (map read_event l ++ rest)
          = reads_follow_binds count count rest.
Proof.
  induction l as [|s l IH]; intros rest; simpl; [done|].
  by rewrite Z.eqb_refl, IH.
Qed.

Lemma reads_follow_binds_closes (count n : Z) (l : list (Z * Z)) :
  ∀ rest, reads_follow_binds count n (map close_event l ++ rest)
          = reads_follow_binds count n rest.
Proof. induction l as [|s l IH]; intros rest; simpl; [done|apply IH]. Qed.

Lemma reads_follow_binds_batch_run (family socktype count rc : Z)
    (opened : list (Z * Z)) (evs : list event) :
  batch_run family socktype count rc opened evs →
  reads_follow_binds count 0 evs = true.
Proof.
  intros Hshape.
  destruct Hshape as [opened Hlen|opened _|opened fd _ _|opened m s Hlen _];
    rewrite reads_follow_binds_opens; simpl.
  - rewrite Hlen, reads_follow_binds_reads.
    rewrite <- (app_nil_r (map close_event opened)).
    by rewrite reads_follow_binds_closes.
  - rewrite <- (app_nil_r (map close_event opened)).
    by rewrite reads_follow_binds_closes.
  - by rewrite reads_follow_binds_closes.
  - rewrite Hlen, reads_follow_binds_reads. simpl.
    rewrite Z.eqb_refl. simpl.
    rewrite <- (app_nil_r (map close_event opened)).
    by rewrite reads_follow_binds_closes.
Qed.

(** ** Failures during the range scan *)



Lemma scan_events_sockets (family socktype lo range start : Z)
    (probes : list (Z * bool)) :
  ∀ i f t fd, Forall (λ p, 0 ≤ p.1) probes →
    EvSocket f t fd ∈ scan_events family socktype lo range start i probes →
    0 ≤ fd.
Proof.
  induction probes as [|[fd0 ok] probes IH]; intros i f t fd Hfds Hin; simpl in Hin.
  { by apply elem_of_nil in Hin. }
  apply Forall_cons in Hfds as [Hfd Hfds]. simpl in Hfd.
  apply elem_of_cons in Hin as [Heq|Hin]; [by injection Heq as -> -> ->|].
  apply elem_of_cons in Hin as [Heq|Hin]; [done|].
  apply elem_of_cons in Hin as [Heq|Hin]; [done|].
  by eapply IH.
Qed.



(** ** [main] *)

Lemma getopt_loop_continue (opts : list option_arg) :
  ∀ (c : config) (w : world) c' w',
    getopt_loop opts c w = inr (c', w') →
    w' = w ∧ (valid_config c → valid_config c').
Proof.
  induction opts as [|o opts IH]; intros c w c' w' Hrun; simpl in Hrun.
  { by injection Hrun as <- <-. }
  destruct o as [n|[|lo|lo hi]| | | | |]; try done.
  - destruct ((n <? 1) || (n >? MAX_PORTS)) eqn:Hn; [done|].
    apply IH in Hrun as [-> Hv]. split; [done|].
    intros [_ Hr]. apply Hv. split; [simpl; lia|done].
  - destruct ((lo <? 1) || (hi >? 65535) || (lo >? hi)) eqn:Hr; [done|].
    apply IH in Hrun as [-> Hv]. split; [done|].
    intros [Hc _]. apply Hv. split; [done|]. right. simpl. lia.
  - apply IH in Hrun as [-> Hv]. split; [done|].
    intros [Hc Hr]. apply Hv. by split.
  - apply IH in Hrun as [-> Hv]. split; [done|].
    intros [Hc Hr]. apply Hv. by split.
Qed.

Lemma getopt_loop_return (opts : list option_arg) :
  ∀ (c : config) (w : world) code w',
    getopt_loop opts c w = inl (code, w') →
    trace w' = trace w ∧ files w' = files w ∧
    ((code = 1 ∧ stdout w' = stdout w) ∨
     (code = 0 ∧ stderr w' = stderr w ∧
      (stdout w' = stdout w ++ [Out_version] ∨ stdout w' = stdout w ++ [Out_usage]))).
Proof.
  induction opts as [|o opts IH]; intros c w code w' Hrun; simpl in Hrun; [done|].
  destruct o as [n|[|lo|lo hi]| | | | |].
  - destruct ((n <? 1) || (n >? MAX_PORTS)); [|by eapply IH].
    injection Hrun as <- <-. simpl. repeat split. by left.
  - injection Hrun as <- <-. simpl. repeat split. by left.
  - injection Hrun as <- <-. simpl. repeat split. by left.
  - destruct ((lo <? 1) || (hi >? 65535) || (lo >? hi)); [|by eapply IH].
    injection Hrun as <- <-. simpl. repeat split. by left.
  - by eapply IH.
  - by eapply IH.
  - injection Hrun as <- <-. simpl. repeat split. right. repeat split. by left.
  - injection Hrun as <- <-. simpl. repeat split. right. repeat split. by right.
  - injection Hrun as <- <-. simpl. repeat split. by left.
Qed.

Lemma getopt_loop_app (pre post : list option_arg) :
  ∀ (c : config) (w : world) c' w',
    getopt_loop pre c w = inr (c', w') →
    getopt_loop (pre ++ post) c w = getopt_loop post c' w'.
Proof.
  induction pre as [|o pre IH]; intros c w c' w' Hrun; simpl in *.
  { by injection Hrun as <- <-. }
  destruct o as [n|[|lo|lo hi]| | | | |]; try done.
  - destruct ((n <? 1) || (n >? MAX_PORTS)); [done|]. by apply IH.
  - destruct ((lo <? 1) || (hi >? 65535) || (lo >? hi)); [done|]. by apply IH.
  - by apply IH.
  - by apply IH.
Qed.

Lemma print_ports_spec (n : nat) :
  ∀ (i count : Z) (ports : list Z) (w : world),
    0 ≤ i → (Z.to_nat (count - i) ≤ n)%nat → (Z.to_nat count ≤ length ports)%nat →
    let w' := print_ports n i count ports w in
    stdout w' = stdout w
                ++ (Out_port <$> take (Z.to_nat (count - i)) (drop (Z.to_nat i) ports)) ∧
    trace w' = trace w ∧ files w' = files w ∧ stderr w' = stderr w.
Proof.
  induction n as [|n IH]; intros i count ports w Hi Hn Hlen; simpl.
  { replace (Z.to_nat (count - i)) with 0%nat by lia. simpl.
    by rewrite app_nil_r. }
  destruct (i <? count) eqn:Hic.
  2: { replace (Z.to_nat (count - i)) with 0%nat by lia. simpl.
       by rewrite app_nil_r. }
  destruct (lookup_lt_is_Some_2 ports (Z.to_nat i)) as [x Hx]; [lia|].
  rewrite (array_get_lookup _ _ _ Hx).
  specialize (IH (i + 1) count ports (put_out (Out_port x) w)).
  destruct IH as (Hout & Htr & Hfs & Herr); [lia|lia|lia|].
  simpl in Hout, Htr, Hfs, Herr.
  replace (Z.to_nat (count - i)) with (S (Z.to_nat (count - (i + 1)))) by lia.
  rewrite (drop_S _ _ _ Hx). simpl.
  replace (S (Z.to_nat i)) with (Z.to_nat (i + 1)) by lia.
  rewrite Hout, <- app_assoc. done.
Qed.

Lemma bound_ports_opens (family socktype : Z) (opened : list (Z * Z)) :
  bound_ports (flat_map (open_events family socktype) opened) = opened.*2.
Proof. induction opened as [|s l IH]; simpl; [done|by rewrite IH]. Qed.

Lemma bound_ports_reads (l : list (Z * Z)) : bound_ports (map read_event l) = [].
Proof. by induction l. Qed.

Lemma bound_ports_closes (l : list (Z * Z)) : bound_ports (map close_event l) = [].
Proof. by induction l. Qed.

Lemma bound_ports_batch_run (family socktype count rc : Z)
    (opened : list (Z * Z)) (evs : list event) :
  batch_run family socktype count rc opened evs → bound_ports evs = opened.*2.
Proof.
  intros Hshape.
  destruct Hshape; rewrite !bound_ports_app, bound_ports_opens; simpl;
    rewrite ?bound_ports_app, ?bound_ports_reads, ?bound_ports_closes; simpl;
    by rewrite ?app_nil_r.
Qed.

Lemma bound_ports_range_run (family socktype count lo range start rc : Z)
    (probes : list (Z * bool)) (evs : list event) :
  range_run family socktype count lo range start rc probes evs →
  bound_ports evs = hits lo range start 0 probes.
Proof.
  intros Hshape.
  destruct Hshape; rewrite ?bound_ports_app, bound_ports_scan_events; simpl;
    by rewrite ?app_nil_r.
Qed.

(** What the acquisition routines hand to their caller. *)
Lemma find_free_ports_result (ports : list Z) (count socktype family : Z) (w : world) :
  0 ≤ count ≤ MAX_PORTS → (Z.to_nat count ≤ length ports)%nat →
  let r := find_free_ports ports count socktype family w in
  (r.1.1 = 0 ∧
   Z.of_nat (length (bound_ports (events_since w r.2))) = count ∧
   take (Z.to_nat count) r.1.2 = bound_ports (events_since w r.2))
  ∨ r.1.1 = -1.
Proof.
  intros Hc Hports.
  destruct (find_free_ports ports count socktype family w) as [[rc ports'] w'] eqn:Hrun.
  simpl. apply find_free_ports_spec in Hrun; [|done..].
  destruct Hrun as (opened & evs & Hshape & Htr & _ & _ & _ & _ & _ & _ & Hok & _).
  rewrite (events_since_app _ _ _ Htr).
  rewrite (bound_ports_batch_run _ _ _ _ _ _ Hshape).
  inversion Hshape; subst; try by right.
  left. destruct (Hok eq_refl) as [Htake _].
  rewrite length_fmap. done.
Qed.

Lemma find_free_ports_range_result (ports : list Z)
    (count lo hi socktype family : Z) (w : world) :
  1 ≤ lo ≤ hi ∧ hi ≤ 65535 → 0 ≤ count → (Z.to_nat count ≤ length ports)%nat →
  let r := find_free_ports_range ports count lo hi socktype family w in
  (r.1.1 = 0 ∧
   Z.of_nat (length (bound_ports (events_since w r.2))) = count ∧
   take (Z.to_nat count) r.1.2 = bound_ports (events_since w r.2))
  ∨ (r.1.1 = -1 ∧
     Z.of_nat (length (bound_ports (events_since w r.2))) < count).
Proof.
  intros Hv Hc Hports.
  destruct (find_free_ports_range ports count lo hi socktype family w)
    as [[rc ports'] w'] eqn:Hrun.
  simpl. apply find_free_ports_range_spec in Hrun; [|done..].
  destruct Hrun as (start & probes & evs & _ & Hshape & Htr & _ & _ & _ & _
                    & Htake & _).
  rewrite (events_since_app _ _ _ Htr).
  rewrite (bound_ports_range_run _ _ _ _ _ _ _ _ _ Hshape).
  inversion Hshape as [? Hf|? ? Hf|? ? Hf]; subst; try by right.
  left. split; [done|]. split; [done|].
  by rewrite Nat2Z.id.
Qed.

Lemma initial_config_valid : valid_config initial_config.
Proof. split; [simpl; unfold MAX_PORTS; lia|by left]. Qed.

Lemma events_since_same_trace (w w1 w2 : world) :
  trace w2 = trace w1 → events_since w w2 = events_since w w1.
Proof. intros H. unfold events_since. by rewrite H. Qed.

Lemma events_since_nil (w w' : world) : trace w' = trace w → events_since w w' = [].
Proof. intros H. apply events_since_app. by rewrite app_nil_r. Qed.

(** The paths through [main]. *)
Lemma main_cases (opts : list option_arg) (w : world) :
  (∃ code w', getopt_loop opts initial_config w = inl (code, w') ∧
     main opts w = (code, w'))
  ∨ ∃ c, getopt_loop opts initial_config w = inr (c, w) ∧ valid_config c ∧
      ((cfg_use_range c = 1 ∧
        cfg_count c > cfg_range_hi c - cfg_range_lo c + 1 ∧
        main opts w
        = (1, put_err (Err_range_too_small (cfg_count c)
                         (cfg_range_hi c - cfg_range_lo c + 1)) w))
       ∨ (∃ q,
            ((cfg_use_range c = 1 ∧
              cfg_count c ≤ cfg_range_hi c - cfg_range_lo c + 1 ∧
              q = find_free_ports_range fresh_array (cfg_count c) (cfg_range_lo c)
                    (cfg_range_hi c) (cfg_socktype c) (cfg_family c) w)
             ∨ (cfg_use_range c = 0 ∧
                q = find_free_ports fresh_array (cfg_count c) (cfg_socktype c)
                      (cfg_family c) w)) ∧
            main opts w
            = if q.1.1 <? 0 then (1, put_err Err_no_free_port q.2)
              else (0, print_ports (Z.to_nat (cfg_count c)) 0 (cfg_count c) q.1.2 q.2))).
Proof.
  unfold main.
  destruct (getopt_loop opts initial_config w) as [[code w']|[c w1]] eqn:Hloop.
  { left. by exists code, w'. }
  right. apply getopt_loop_continue in Hloop as [-> Hv].
  specialize (Hv initial_config_valid).
  exists c. split; [done|]. split; [done|].
  destruct Hv as [Hc [Hu|(Hu & Hr)]]; rewrite Hu; simpl.
  - right.
    exists (find_free_ports fresh_array (cfg_count c) (cfg_socktype c) (cfg_family c) w).
    split; [by right|].
    by destruct (find_free_ports _ _ _ _ _) as [[rc ports1] w2].
  - rewrite range_size_valid by done.
    destruct (cfg_count c >? cfg_range_hi c - cfg_range_lo c + 1) eqn:Hgt.
    + left. split; [done|]. split; [lia|done].
    + right.
      exists (find_free_ports_range fresh_array (cfg_count c) (cfg_range_lo c)
                (cfg_range_hi c) (cfg_socktype c) (cfg_family c) w).
      split; [left; split; [done|]; split; [lia|done]|].
      by destruct (find_free_ports_range _ _ _ _ _ _ _) as [[rc ports1] w2].
Qed.

(** What a run of either routine under [main] gives. *)
Lemma core_run (c : config) (w : world) (q : Z * list Z * world) :
  valid_config c →
  (cfg_use_range c = 1 ∧
   cfg_count c ≤ cfg_range_hi c - cfg_range_lo c + 1 ∧
   q = find_free_ports_range fresh_array (cfg_count c) (cfg_range_lo c)
         (cfg_range_hi c) (cfg_socktype c) (cfg_family c) w)
  ∨ (cfg_use_range c = 0 ∧
     q = find_free_ports fresh_array (cfg_count c) (cfg_socktype c)
           (cfg_family c) w) →
  stdout q.2 = stdout w ∧ files q.2 = files w ∧
  length q.1.2 = Z.to_nat MAX_PORTS ∧
  ((q.1.1 = 0 ∧
    Z.of_nat (length (bound_ports (events_since w q.2))) = cfg_count c ∧
    take (Z.to_nat (cfg_count c)) q.1.2 = bound_ports (events_since w q.2))
   ∨ q.1.1 = -1).
Proof.
  intros [Hc Hr] Hq.
  assert (Z.to_nat (cfg_count c) ≤ length fresh_array)%nat as Hlen
    by (rewrite fresh_array_length; lia).
  destruct Hq as [(Hu & Hsize & ->)|(Hu & ->)].
  - destruct Hr as [Hr|(_ & Hr)]; [lia|].
    pose proof (find_free_ports_range_result fresh_array (cfg_count c)
                  (cfg_range_lo c) (cfg_range_hi c) (cfg_socktype c)
                  (cfg_family c) w Hr ltac:(lia) Hlen) as Hres.
    destruct (find_free_ports_range _ _ _ _ _ _ _) as [[rc ports'] w'] eqn:Hrun.
    simpl in *. apply find_free_ports_range_spec in Hrun; [|done|lia|done].
    destruct Hrun as (_ & _ & _ & _ & _ & _ & Hfs & Hout & _ & Hl & _).
    rewrite fresh_array_length in Hl.
    repeat split; try done. destruct Hres as [?|[? _]]; [by left|by right].
  - pose proof (find_free_ports_result fresh_array (cfg_count c)
                  (cfg_socktype c) (cfg_family c) w ltac:(lia) Hlen) as Hres.
    destruct (find_free_ports _ _ _ _ _) as [[rc ports'] w'] eqn:Hrun.
    simpl in *. apply find_free_ports_spec in Hrun; [|lia|done].
    destruct Hrun as (_ & _ & _ & _ & Hfs & Hout & Hl & _).
    rewrite fresh_array_length in Hl.
    repeat split; done.
Qed.

(** What a run of [main] prints on the standard output: nothing when it
    exits with status 1; the version or the usage, without any system call;
    or exactly [count] ports, those its binds obtained. *)
Lemma main_result (opts : list option_arg) (w : world) :
  let r := main opts w in
  (r.1 = 1 ∧ stdout r.2 = stdout w)
  ∨ (r.1 = 0 ∧ events_since w r.2 = [] ∧
     (stdout r.2 = stdout w ++ [Out_version]
      ∨ stdout r.2 = stdout w ++ [Out_usage]))
  ∨ (r.1 = 0 ∧
     ∃ c, getopt_loop opts initial_config w = inr (c, w) ∧
       Z.of_nat (length (bound_ports (events_since w r.2))) = cfg_count c ∧
       stdout r.2
       = stdout w ++ (Out_port <$> bound_ports (events_since w r.2))).
Proof.
  destruct (main_cases opts w) as [(code & w' & Hloop & ->)|(c & Hloop & Hv & Hrun)].
  { simpl. apply getopt_loop_return in Hloop as (Htr & _ & [[-> Hout]|(-> & _ & Hout)]).
    - by left.
    - right. left. split; [done|]. split; [by apply events_since_nil|done]. }
  destruct Hrun as [(_ & _ & ->)|(q & Hq & ->)]; [by left|].
  destruct (core_run c w q Hv Hq) as (Hout & _ & Hl & Hres).
  destruct Hres as [(Hrc & Hn & Htake)|Hrc]; rewrite Hrc; simpl.
  2: { by left. }
  right. right. split; [done|]. exists c. split; [done|].
  pose proof (print_ports_spec (Z.to_nat (cfg_count c)) 0 (cfg_count c) q.1.2 q.2)
    as Hprint.
  destruct Hprint as (Pout & Ptr & _); [lia|lia|destruct Hv; lia|].
  rewrite (events_since_same_trace _ _ _ Ptr).
  split; [done|].
  rewrite Pout, Hout, drop_0, Z.sub_0_r, Htake. done.
Qed.

(** C6: invalid configuration is rejected before any core operation runs.
    When the option loop reaches a count outside [1, 1024] or a range that
    does not scan as two numbers or has [lo < 1], [hi > 65535] or [lo > hi],
    and when the loop ends with a count larger than the range, [main] returns
    1 in a world that differs from the initial one by one line on the
    standard error only; and whenever [main] makes a system call the
    configuration is valid and the count fits the range. *)
Theorem invalid_config_rejected :
  (∀ (pre post : list option_arg) (c : config) (w : world) (n : Z),
     getopt_loop pre initial_config w = inr (c, w) →
     n < 1 ∨ n > MAX_PORTS →
     main (pre ++ Opt_n n :: post) w = (1, put_err Err_count_bounds w)) ∧
  (∀ (pre post : list option_arg) (c : config) (w : world) (s : scanned),
     getopt_loop pre initial_config w = inr (c, w) →
     bad_range s →
     main (pre ++ Opt_r s :: post) w = (1, put_err Err_bad_range w)) ∧
  (∀ (opts : list option_arg) (c : config) (w : world),
     getopt_loop opts initial_config w = inr (c, w) →
     cfg_use_range c ≠ 0 →
     cfg_count c > cfg_range_hi c - cfg_range_lo c + 1 →
     main opts w
     = (1, put_err (Err_range_too_small (cfg_count c)
                      (cfg_range_hi c - cfg_range_lo c + 1)) w)) ∧
  (∀ (opts : list option_arg) (w : world),
     events_since w (main opts w).2 ≠ [] →
     ∃ c, getopt_loop opts initial_config w = inr (c, w) ∧
       valid_config c ∧
       (cfg_use_range c ≠ 0 →
        cfg_count c ≤ cfg_range_hi c - cfg_range_lo c + 1)).
Proof.
  split; [|split; [|split]].
  - intros pre post c w n Hpre Hn. unfold main.
    rewrite (getopt_loop_app _ _ _ _ _ _ Hpre). simpl.
    assert ((n <? 1) || (n >? MAX_PORTS) = true) as -> by lia. done.
  - intros pre post c w s Hpre Hs. unfold main.
    rewrite (getopt_loop_app _ _ _ _ _ _ Hpre). simpl.
    destruct s as [|lo|lo hi]; try done. simpl in Hs.
    assert ((lo <? 1) || (hi >? 65535) || (lo >? hi) = true) as -> by lia. done.
  - intros opts c w Hloop Hu Hgt.
    destruct (main_cases opts w) as [(code & w' & Hloop' & _)|(c' & Hloop' & Hv & Hrun)];
      [congruence|].
    assert (c' = c) as -> by congruence.
    destruct Hrun as [(_ & _ & ->)|(q & [(_ & Hle & _)|(Hu0 & _)] & _)]; [done|lia|done].
  - intros opts w Hev.
    destruct (main_cases opts w) as [(code & w' & Hloop & Hmain)|(c & Hloop & Hv & Hrun)].
    { rewrite Hmain in Hev. simpl in Hev.
      apply getopt_loop_return in Hloop as (Htr & _).
      by rewrite events_since_nil in Hev. }
    exists c. split; [done|]. split; [done|].
    destruct Hrun as [(_ & _ & Hmain)|(q & [(_ & Hle & _)|(Hu0 & _)] & _)]; [|done|done].
    rewrite Hmain in Hev. simpl in Hev.
    by rewrite events_since_nil in Hev.
Qed.

Lemma invalid_config_witness :
  let w := boot generous (fixed_draw 7) in
  main ([Opt_u] ++ Opt_n 0 :: [Opt_6]) w = (1, put_err Err_count_bounds w) ∧
  main ([Opt_n 5] ++ Opt_r (Scan2 100 50) :: []) w = (1, put_err Err_bad_range w) ∧
  main [Opt_n 200; Opt_r (Scan2 8000 8010)] w
  = (1, put_err (Err_range_too_small 200 11) w) ∧
  ∃ c, getopt_loop [Opt_n 3] initial_config w = inr (c, w) ∧ valid_config c.
Proof.
  intros w.
  destruct invalid_config_rejected as (Hn & Hr & Hsize & Hsafe).
  split; [|split; [|split]].
  - apply (Hn [Opt_u] [Opt_6] (Config 1 SOCK_DGRAM AF_INET 0 0 0) w 0).
    + reflexivity.
    + lia.
  - apply (Hr [Opt_n 5] [] (Config 5 SOCK_STREAM AF_INET 0 0 0) w (Scan2 100 50)).
    + reflexivity.
    + simpl. lia.
  - apply (Hsize [Opt_n 200; Opt_r (Scan2 8000 8010)]
                 (Config 200 SOCK_STREAM AF_INET 8000 8010 1) w).
    + reflexivity.
    + simpl. lia.
    + simpl. lia.
  - destruct (Hsafe [Opt_n 3] w) as (c & Hc & Hv & _).
    + vm_compute. discriminate.
    + by exists c.
Defined.

(** C7 as stated fails: a scan that found every port busy and a scan whose
    first [socket] call was refused hand the same signal to the caller. *)
Lemma failure_signal_does_not_distinguish : ¬ signal_distinguishes_causes.
Proof.
  intros (classify & Hcl).
  pose proof (Hcl fresh_array 1 8000 8000 SOCK_STREAM AF_INET
                  (boot exhausted (fixed_draw 0))) as H1.
  pose proof (Hcl fresh_array 1 8000 8000 SOCK_STREAM AF_INET
                  (boot all_busy (fixed_draw 0))) as H2.
  simpl in H1, H2.
  specialize (H1 ltac:(lia) ltac:(lia) ltac:(vm_compute; lia) ltac:(vm_compute; discriminate)).
  specialize (H2 ltac:(lia) ltac:(lia) ltac:(vm_compute; lia) ltac:(vm_compute; discriminate)).
  assert (failure_signal (boot exhausted (fixed_draw 0))
            (find_free_ports_range fresh_array 1 8000 8000 SOCK_STREAM AF_INET
               (boot exhausted (fixed_draw 0)))
          = failure_signal (boot all_busy (fixed_draw 0))
              (find_free_ports_range fresh_array 1 8000 8000 SOCK_STREAM AF_INET
                 (boot all_busy (fixed_draw 0)))) as Hsame
    by (vm_compute; reflexivity).
  rewrite Hsame in H1. rewrite H1 in H2.
  vm_compute in H2. discriminate H2.
Qed.

(** * Further properties of the program *)

(** ** Socket addresses *)

(** The port that [setup_addr] stores is the port that [read_port] reads
    back, for either family: the low 16 bits of the [int] it was given, hence
    the port itself when it is a port number. *)
Theorem address_round_trip (family port : Z) :
  read_port (setup_addr family port).1 family = port mod 2 ^ 16 ∧
  (0 ≤ port ≤ 65535 → read_port (setup_addr family port).1 family = port).
Proof.
  assert (read_port (setup_addr family port).1 family = to_uint16 port) as H.
  { unfold setup_addr. destruct (family =? AF_INET); apply read_port_htons. }
  split; [exact H|].
  intros Hp. rewrite H. apply to_uint16_small. lia.
Qed.

Lemma address_round_trip_witness :
  read_port (setup_addr AF_INET6 8080).1 AF_INET6 = 8080.
Proof.
  apply (address_round_trip AF_INET6 8080). lia.
Defined.

(** ** What the options select *)

Lemma getopt_loop_split (pre post : list option_arg) :
  ∀ (c0 : config) (w : world) c w',
    getopt_loop (pre ++ post) c0 w = inr (c, w') →
    ∃ c1, getopt_loop pre c0 w = inr (c1, w) ∧ getopt_loop post c1 w = inr (c, w').
Proof.
  induction pre as [|o pre IH]; intros c0 w c w' Hrun; simpl in *.
  { by exists c0. }
  destruct o as [n|[|lo|lo hi]| | | | |]; try done.
  - destruct ((n <? 1) || (n >? MAX_PORTS)); [done|]. by apply IH.
  - destruct ((lo <? 1) || (hi >? 65535) || (lo >? hi)); [done|]. by apply IH.
  - by apply IH.
  - by apply IH.
Qed.

(** One step of reasoning on an option loop that runs to its end. *)
Ltac getopt_cases o Hrun :=
  destruct o as [?n|[|?lo|?lo ?hi]| | | | |]; try done;
  [ destruct ((_ <? 1) || (_ >? MAX_PORTS)); [done|]
  | destruct ((_ <? 1) || (_ >? 65535) || (_ >? _)); [done|]
  | | ].

Lemma getopt_loop_socktype (opts : list option_arg) :
  ∀ (c0 : config) (w : world) c w',
    getopt_loop opts c0 w = inr (c, w') →
    (Opt_u ∈ opts → cfg_socktype c = SOCK_DGRAM) ∧
    (Opt_u ∉ opts → cfg_socktype c = cfg_socktype c0) ∧
    (cfg_socktype c0 = SOCK_DGRAM → cfg_socktype c = SOCK_DGRAM).
Proof.
  induction opts as [|o opts IH]; intros c0 w c w' Hrun; simpl in Hrun.
  { injection Hrun as <- <-. rewrite elem_of_nil. naive_solver. }
  getopt_cases o Hrun; apply IH in Hrun; simpl in Hrun;
    rewrite not_elem_of_cons, elem_of_cons; naive_solver.
Qed.

Lemma getopt_loop_family (opts : list option_arg) :
  ∀ (c0 : config) (w : world) c w',
    getopt_loop opts c0 w = inr (c, w') →
    (Opt_6 ∈ opts → cfg_family c = AF_INET6) ∧
    (Opt_6 ∉ opts → cfg_family c = cfg_family c0) ∧
    (cfg_family c0 = AF_INET6 → cfg_family c = AF_INET6).
Proof.
  induction opts as [|o opts IH]; intros c0 w c w' Hrun; simpl in Hrun.
  { injection Hrun as <- <-. rewrite elem_of_nil. naive_solver. }
  getopt_cases o Hrun; apply IH in Hrun; simpl in Hrun;
    rewrite not_elem_of_cons, elem_of_cons; naive_solver.
Qed.

Lemma getopt_loop_count_kept (opts : list option_arg) :
  ∀ (c0 : config) (w : world) c w',
    getopt_loop opts c0 w = inr (c, w') →
    (∀ n, Opt_n n ∉ opts) → cfg_count c = cfg_count c0.
Proof.
  induction opts as [|o opts IH]; intros c0 w c w' Hrun Hno; simpl in Hrun.
  { by injection Hrun as <- <-. }
  assert (∀ n, Opt_n n ∉ opts) as Hno'.
  { intros n Hn. apply (Hno n). apply elem_of_cons. by right. }
  getopt_cases o Hrun; try (apply IH in Hrun; [done|done]).
  exfalso. apply (Hno n). apply elem_of_cons. by left.
Qed.

Lemma getopt_loop_range_kept (opts : list option_arg) :
  ∀ (c0 : config) (w : world) c w',
    getopt_loop opts c0 w = inr (c, w') →
    (∀ s, Opt_r s ∉ opts) →
    cfg_use_range c = cfg_use_range c0 ∧ cfg_range_lo c = cfg_range_lo c0 ∧
    cfg_range_hi c = cfg_range_hi c0.
Proof.
  induction opts as [|o opts IH]; intros c0 w c w' Hrun Hno; simpl in Hrun.
  { by injection Hrun as <- <-. }
  assert (∀ s, Opt_r s ∉ opts) as Hno'.
  { intros s Hs. apply (Hno s). apply elem_of_cons. by right. }
  getopt_cases o Hrun; try (apply IH in Hrun; [done|done]).
  exfalso. apply (Hno (Scan2 lo hi)). apply elem_of_cons. by left.
Qed.

(** The flags [-u] and [-6] select UDP and IPv6 wherever they stand on the
    command line, and nothing selects TCP or IPv4 back; of several [-n] or
    [-r] options the last one counts; without them the count is 1 and there is
    no range. *)
Theorem options_select_configuration (opts : list option_arg) (c : config) (w : world) :
  getopt_loop opts initial_config w = inr (c, w) →
  (Opt_u ∈ opts → cfg_socktype c = SOCK_DGRAM) ∧
  (Opt_u ∉ opts → cfg_socktype c = SOCK_STREAM) ∧
  (Opt_6 ∈ opts → cfg_family c = AF_INET6) ∧
  (Opt_6 ∉ opts → cfg_family c = AF_INET) ∧
  ((∀ n, Opt_n n ∉ opts) → cfg_count c = 1) ∧
  ((∀ s, Opt_r s ∉ opts) → cfg_use_range c = 0) ∧
  (∀ pre n post, opts = pre ++ Opt_n n :: post → (∀ m, Opt_n m ∉ post) →
     cfg_count c = n ∧ 1 ≤ n ≤ MAX_PORTS) ∧
  (∀ pre s post, opts = pre ++ Opt_r s :: post → (∀ s', Opt_r s' ∉ post) →
     ∃ lo hi, s = Scan2 lo hi ∧ cfg_use_range c = 1 ∧
       cfg_range_lo c = lo ∧ cfg_range_hi c = hi ∧ 1 ≤ lo ≤ hi ∧ hi ≤ 65535).
Proof.
  intros Hrun.
  pose proof (getopt_loop_socktype _ _ _ _ _ Hrun) as (Hu & Hnu & _).
  pose proof (getopt_loop_family _ _ _ _ _ Hrun) as (H6 & Hn6 & _).
  split; [done|]. split; [done|]. split; [done|]. split; [done|].
  split; [by apply (getopt_loop_count_kept _ _ _ _ _ Hrun)|].
  split; [intros Hno; by apply (getopt_loop_range_kept _ _ _ _ _ Hrun)|].
  split.
  - intros pre n post -> Hno.
    apply getopt_loop_split in Hrun as (c1 & _ & Hpost). simpl in Hpost.
    destruct ((n <? 1) || (n >? MAX_PORTS)) eqn:Hn; [done|].
    apply getopt_loop_count_kept in Hpost; [|done]. simpl in Hpost. lia.
  - intros pre s post -> Hno.
    apply getopt_loop_split in Hrun as (c1 & _ & Hpost). simpl in Hpost.
    destruct s as [|lo|lo hi]; try done.
    destruct ((lo <? 1) || (hi >? 65535) || (lo >? hi)) eqn:Hr; [done|].
    apply getopt_loop_range_kept in Hpost; [|done]. simpl in Hpost.
    exists lo, hi. repeat split; try tauto; lia.
Qed.

Lemma options_select_witness :
  let w := boot generous (fixed_draw 7) in
  let c := Config 4 SOCK_DGRAM AF_INET 8000 8100 1 in
  cfg_socktype c = SOCK_DGRAM ∧ cfg_family c = AF_INET ∧
  (cfg_count c = 4 ∧ 1 ≤ 4 ≤ MAX_PORTS).
Proof.
  intros w c.
  destruct (options_select_configuration
              [Opt_n 9; Opt_u; Opt_r (Scan2 8000 8100); Opt_n 4] c w)
    as (Hu & _ & _ & Hn6 & _ & _ & Hn & _).
  - reflexivity.
  - split; [apply Hu; set_solver|].
    split; [apply Hn6; set_solver|].
    apply (Hn [Opt_n 9; Opt_u; Opt_r (Scan2 8000 8100)] 4 []); [reflexivity|].
    intros m Hm. by apply elem_of_nil in Hm.
Defined.

(** [-v], [-h] and an unknown option end the program as soon as the option
    loop reaches them: the options after them are not looked at, even invalid
    ones, and no system call is made. For an unknown option the standard
    error gets the diagnostic of [getopt] and then the usage. *)
Theorem version_help_end_the_run (pre post : list option_arg) (c : config) (w : world) :
  getopt_loop pre initial_config w = inr (c, w) →
  main (pre ++ Opt_v :: post) w = (0, put_out Out_version w) ∧
  main (pre ++ Opt_h :: post) w = (0, put_out Out_usage w) ∧
  main (pre ++ Opt_other :: post) w
  = (1, put_err Err_usage (put_err Err_getopt w)).
Proof.
  intros Hpre. unfold main.
  by rewrite !(getopt_loop_app _ _ _ _ _ _ Hpre).
Qed.

Lemma version_help_witness :
  let w := boot generous (fixed_draw 7) in
  main ([Opt_u; Opt_n 3] ++ Opt_v :: [Opt_n 0; Opt_r Scan0]) w
  = (0, put_out Out_version w) ∧
  main ([Opt_u; Opt_n 3] ++ Opt_h :: [Opt_n 0; Opt_r Scan0]) w
  = (0, put_out Out_usage w) ∧
  main ([Opt_u; Opt_n 3] ++ Opt_other :: [Opt_n 0; Opt_r Scan0]) w
  = (1, put_err Err_usage (put_err Err_getopt w)).
Proof.
  intros w.
  apply (version_help_end_the_run [Opt_u; Opt_n 3] [Opt_n 0; Opt_r Scan0]
           (Config 3 SOCK_DGRAM AF_INET 0 0 0) w).
  reflexivity.
Defined.

(** ** What [main] does to the process *)

(** Whatever the command line and whatever the kernel answers, [main] leaves
    the descriptor table as it found it. *)
Theorem main_leaves_no_descriptor (opts : list option_arg) (w : world) :
  files (main opts w).2 = files w.
Proof.
  destruct (main_cases opts w) as [(code & w' & Hloop & ->)|(c & Hloop & Hv & Hrun)].
  { simpl. by apply getopt_loop_return in Hloop as (_ & Hfs & _). }
  destruct Hrun as [(_ & _ & ->)|(q & Hq & ->)]; [done|].
  destruct (core_run c w q Hv Hq) as (_ & Hfs & _).
  destruct (q.1.1 <? 0); simpl; [done|].
  pose proof (print_ports_spec (Z.to_nat (cfg_count c)) 0 (cfg_count c) q.1.2 q.2)
    as Hprint.
  destruct Hprint as (_ & _ & Pfs & _); [lia|lia| |].
  - destruct (core_run c w q Hv Hq) as (_ & _ & Hl & _).
    destruct Hv as [Hc _]. lia.
  - by rewrite Pfs.
Qed.

(** ** The system calls of a run *)

Lemma setup_addr_uses (family port : Z) :
  family = AF_INET ∨ family = AF_INET6 →
  ss_family (setup_addr family port).1 = family ∧
  ss_addr (setup_addr family port).1 = loopback_of family.
Proof.
  intros [->| ->]; by vm_compute.
Qed.

Lemma batch_run_uses (family socktype count rc : Z)
    (opened : list (Z * Z)) (evs : list event) :
  family = AF_INET ∨ family = AF_INET6 →
  batch_run family socktype count rc opened evs →
  Forall (event_uses family socktype) evs.
Proof.
  intros Hf Hshape.
  pose proof (setup_addr_uses family 0 Hf) as Hsa.
  assert (Forall (event_uses family socktype)
            (flat_map (open_events family socktype) opened)) as Hopens.
  { clear Hshape. induction opened as [|s l IH]; simpl; [done|].
    apply Forall_cons_2; [done|]. by apply Forall_cons_2. }
  assert (∀ l, Forall (event_uses family socktype) (map read_event l)) as Hreads.
  { induction l as [|s l IH]; simpl; [done|]. by apply Forall_cons_2. }
  assert (∀ l, Forall (event_uses family socktype) (map close_event l)) as Hcloses.
  { induction l as [|s l IH]; simpl; [done|]. by apply Forall_cons_2. }
  destruct Hshape; repeat (apply Forall_app_2 || apply Forall_cons_2); done.
Qed.

Lemma scan_events_uses (family socktype lo range start : Z)
    (probes : list (Z * bool)) :
  family = AF_INET ∨ family = AF_INET6 →
  ∀ i, Forall (event_uses family socktype)
         (scan_events family socktype lo range start i probes).
Proof.
  intros Hf.
  induction probes as [|[fd ok] probes IH]; intros i; simpl; [done|].
  pose proof (setup_addr_uses family (candidate lo range start i) Hf) as Hsa.
  apply Forall_cons_2; [done|]. apply Forall_cons_2; [done|].
  apply Forall_cons_2; [done|]. apply IH.
Qed.

Lemma getopt_loop_family_known (opts : list option_arg) (c : config) (w : world) :
  getopt_loop opts initial_config w = inr (c, w) →
  cfg_family c = AF_INET ∨ cfg_family c = AF_INET6.
Proof.
  intros Hrun. apply getopt_loop_family in Hrun as (H6 & Hn6 & Hm).
  destruct (cfg_family c =? AF_INET6) eqn:E; [right; lia|].
  left. apply Hn6. intros Hin. apply H6 in Hin. lia.
Qed.

(** Every socket that a run of [main] creates has the family and the type
    that the options selected, and every [bind] of the run is to the loopback
    address of that family, never to a wildcard or an external address. *)
Theorem sockets_as_selected_on_loopback (opts : list option_arg) (c : config) (w : world) :
  getopt_loop opts initial_config w = inr (c, w) →
  Forall (event_uses (cfg_family c) (cfg_socktype c))
         (events_since w (main opts w).2).
Proof.
  intros Hloop.
  pose proof (getopt_loop_family_known _ _ _ Hloop) as Hf.
  destruct (main_cases opts w) as [(code & w' & Hloop' & _)|(c' & Hloop' & Hv & Hrun)];
    [congruence|].
  assert (c' = c) as -> by congruence.
  destruct Hrun as [(_ & _ & ->)|(q & Hq & ->)].
  { simpl. by rewrite events_since_nil. }
  destruct Hv as [Hc Hr].
  assert (Z.to_nat (cfg_count c) ≤ length fresh_array)%nat as Hlen
    by (rewrite fresh_array_length; lia).
  assert (Forall (event_uses (cfg_family c) (cfg_socktype c)) (events_since w q.2))
    as Hcore.
  { destruct Hq as [(Hu & Hsize & ->)|(Hu & ->)].
    - destruct Hr as [Hr|(_ & Hr)]; [lia|].
      destruct (find_free_ports_range _ _ _ _ _ _ _) as [[rc ports'] w'] eqn:Hrun.
      apply find_free_ports_range_spec in Hrun; [|done|lia|done].
      destruct Hrun as (start & probes & evs & _ & Hshape & Htr & _).
      simpl. rewrite (events_since_app _ _ _ Htr).
      destruct Hshape; try by apply scan_events_uses.
      apply Forall_app_2; [by apply scan_events_uses|].
      by apply Forall_cons_2.
    - destruct (find_free_ports _ _ _ _ _) as [[rc ports'] w'] eqn:Hrun.
      apply find_free_ports_spec in Hrun; [|lia|done].
      destruct Hrun as (opened & evs & Hshape & Htr & _).
      simpl. rewrite (events_since_app _ _ _ Htr).
      by eapply batch_run_uses. }
  destruct (q.1.1 <? 0); simpl; [done|].
  pose proof (print_ports_spec (Z.to_nat (cfg_count c)) 0 (cfg_count c) q.1.2 q.2)
    as Hprint.
  destruct Hprint as (_ & Ptr & _); [lia|lia| |].
  - destruct (core_run c w q (conj Hc Hr) Hq) as (_ & _ & Hl & _). lia.
  - by rewrite (events_since_same_trace _ _ _ Ptr).
Qed.

Lemma sockets_as_selected_witness :
  let w := boot generous (fixed_draw 7) in
  Forall (event_uses AF_INET6 SOCK_DGRAM)
         (events_since w (main [Opt_6; Opt_n 2; Opt_u] w).2).
Proof.
  intros w.
  apply (sockets_as_selected_on_loopback [Opt_6; Opt_n 2; Opt_u]
           (Config 2 SOCK_DGRAM AF_INET6 0 0 0) w).
  reflexivity.
Defined.

(** ** The unconstrained batch: simultaneous holding, no retry *)

Lemma peak_open_ge (evs : list event) :
  ∀ held, (length held ≤ peak_open held evs)%nat.
Proof. destruct evs; intros held; simpl; lia. Qed.

Lemma peak_open_quiet (evs : list event) :
  ∀ held, Forall opens_nothing evs → peak_open held evs = length held.
Proof.
  induction evs as [|e evs IH]; intros held Hq; [done|].
  apply Forall_cons in Hq as [He Hq]. simpl.
  rewrite IH by done.
  destruct e as [f t fd| | |fd]; simpl in *; try lia.
  - destruct (fd <? 0) eqn:Hneg; [lia|lia].
  - pose proof (length_filter (λ x, x ≠ fd) held). lia.
Qed.

Lemma peak_open_opens (family socktype : Z) (opened : list (Z * Z)) :
  ∀ held rest,
    Forall (λ s, 0 ≤ s.1 ∧ 0 ≤ s.2 < 65536) opened →
    peak_open held (flat_map (open_events family socktype) opened ++ rest)
    = peak_open (held ++ opened.*1) rest.
Proof.
  induction opened as [|[fd p] opened IH]; intros held rest Hrng; simpl.
  { by rewrite app_nil_r. }
  apply Forall_cons in Hrng as [[Hfd _] Hrng]. simpl in Hfd.
  destruct (fd <? 0) eqn:Hneg; [lia|].
  rewrite IH by done. rewrite <- app_assoc. simpl.
  change (list_fmap _ _ fst opened) with (opened.*1).
  pose proof (peak_open_ge rest (held ++ fd :: opened.*1)) as Hge.
  rewrite !length_app in *. simpl in Hge.
  change (length [fd]) with 1%nat. lia.
Qed.

Lemma quiet_reads (l : list (Z * Z)) : Forall opens_nothing (map read_event l).
Proof. induction l; simpl; [done|by apply Forall_cons_2]. Qed.

Lemma quiet_closes (l : list (Z * Z)) : Forall opens_nothing (map close_event l).
Proof. induction l; simpl; [done|by apply Forall_cons_2]. Qed.

(** The unconstrained routine holds its sockets open together: the largest
    number of its sockets open at one time is the number it created, which is
    [count] on success and never more than [count]. *)
Theorem batch_holds_sockets_together (ports : list Z)
    (count socktype family : Z) (w : world) :
  0 ≤ count ≤ MAX_PORTS → (Z.to_nat count ≤ length ports)%nat →
  let r := find_free_ports ports count socktype family w in
  (peak_open [] (events_since w r.2) ≤ Z.to_nat count)%nat ∧
  (r.1.1 = 0 → peak_open [] (events_since w r.2) = Z.to_nat count).
Proof.
  intros Hc Hports.
  destruct (find_free_ports ports count socktype family w) as [[rc ports'] w'] eqn:Hrun.
  simpl. apply find_free_ports_spec in Hrun; [|done..].
  destruct Hrun as (opened & evs & Hshape & Htr & _ & _ & _ & _ & Hrng & _).
  rewrite (events_since_app _ _ _ Htr).
  pose proof (quiet_reads opened) as Qr.
  pose proof (quiet_closes opened) as Qc.
  destruct Hshape as [opened Hlen|opened Hlen|opened fd Hlen Hfd|opened m s Hlen Hs];
    rewrite peak_open_opens by done; simpl app.
  - rewrite peak_open_quiet by (by apply Forall_app_2).
    rewrite length_fmap. lia.
  - rewrite peak_open_quiet by (by apply Forall_cons_2).
    rewrite length_fmap. lia.
  - simpl. destruct (fd <? 0) eqn:Hneg; [lia|].
    rewrite peak_open_quiet
      by (apply Forall_app_2; [done|by apply Forall_cons_2]).
    rewrite length_app, length_fmap. simpl. lia.
  - rewrite peak_open_quiet.
    + rewrite length_fmap. lia.
    + apply Forall_app_2; [apply quiet_reads|by apply Forall_cons_2].
Qed.

Lemma batch_holds_witness :
  let w := boot generous (fixed_draw 0) in
  peak_open [] (events_since w
                  (find_free_ports fresh_array 3 SOCK_STREAM AF_INET w).2) = 3%nat.
Proof.
  intros w.
  apply (batch_holds_sockets_together fresh_array 3 SOCK_STREAM AF_INET w).
  - unfold MAX_PORTS. lia.
  - vm_compute. lia.
  - vm_compute. reflexivity.
Defined.

Lemma probed_opens (family socktype : Z) (opened : list (Z * Z)) :
  probed (flat_map (open_events family socktype) opened)
  = replicate (length opened) 0.
Proof.
  induction opened as [|s l IH]; simpl; [done|].
  by rewrite setup_addr_zero_request, IH.
Qed.

Lemma probed_reads (l : list (Z * Z)) : probed (map read_event l) = [].
Proof. by induction l. Qed.

Lemma probed_closes (l : list (Z * Z)) : probed (map close_event l) = [].
Proof. by induction l. Qed.

Lemma socket_calls_opens (family socktype : Z) (opened : list (Z * Z)) :
  socket_calls (flat_map (open_events family socktype) opened) = length opened.
Proof. induction opened as [|s l IH]; simpl; [done|by rewrite IH]. Qed.

Lemma socket_calls_reads (l : list (Z * Z)) : socket_calls (map read_event l) = 0%nat.
Proof. by induction l. Qed.

Lemma socket_calls_closes (l : list (Z * Z)) : socket_calls (map close_event l) = 0%nat.
Proof. by induction l. Qed.

(** The unconstrained routine never retries and never asks for a port of its
    own choosing: it makes at most [count] [socket] calls and at most [count]
    [bind] calls, each for port 0; on success it makes exactly [count] of
    each. *)
Theorem batch_never_retries (ports : list Z) (count socktype family : Z) (w : world) :
  0 ≤ count ≤ MAX_PORTS → (Z.to_nat count ≤ length ports)%nat →
  let r := find_free_ports ports count socktype family w in
  (socket_calls (events_since w r.2) ≤ Z.to_nat count)%nat ∧
  (length (probed (events_since w r.2)) ≤ Z.to_nat count)%nat ∧
  Forall (λ p, p = 0) (probed (events_since w r.2)) ∧
  (r.1.1 = 0 →
   socket_calls (events_since w r.2) = Z.to_nat count ∧
   probed (events_since w r.2) = replicate (Z.to_nat count) 0).
Proof.
  intros Hc Hports.
  destruct (find_free_ports ports count socktype family w) as [[rc ports'] w'] eqn:Hrun.
  simpl. apply find_free_ports_spec in Hrun; [|done..].
  destruct Hrun as (opened & evs & Hshape & Htr & _).
  rewrite (events_since_app _ _ _ Htr).
  assert (∀ n, Forall (λ p : Z, p = 0) (replicate n 0)) as Hzero.
  { intros n. apply Forall_forall. intros p Hp.
    by apply elem_of_replicate in Hp as [-> _]. }
  destruct Hshape as [opened Hlen|opened Hlen|opened fd Hlen Hfd|opened m s Hlen Hs];
    rewrite !socket_calls_app, !probed_app, socket_calls_opens, probed_opens;
    simpl;
    rewrite ?socket_calls_app, ?probed_app, ?socket_calls_reads, ?probed_reads,
      ?socket_calls_closes, ?probed_closes; simpl;
    rewrite ?app_nil_r, ?length_app, ?length_replicate; simpl.
  - repeat split; try done; try lia. f_equal. lia.
  - repeat split; try done; lia.
  - rewrite setup_addr_zero_request.
    repeat split; try done; try lia.
    apply Forall_app_2; [done|by apply Forall_cons_2].
  - repeat split; try done; lia.
Qed.

Lemma batch_never_retries_witness :
  let w := boot (grants_first 3) (fixed_draw 0) in
  (socket_calls (events_since w
                   (find_free_ports fresh_array 5 SOCK_STREAM AF_INET w).2) ≤ 5)%nat.
Proof.
  intros w.
  apply (batch_never_retries fresh_array 5 SOCK_STREAM AF_INET w).
  - unfold MAX_PORTS. lia.
  - vm_compute. lia.
Defined.

(** ** What the routines write to the caller's array *)

Lemma array_frame (ports ports' found : list Z) :
  length ports' = length ports →
  (∀ k v, found !! k = Some v → ports' !! k = Some v) →
  (∀ k, (length found ≤ k)%nat → ports' !! k = ports !! k) →
  ports' = found ++ drop (length found) ports.
Proof.
  intros Hl Hfront Hback. apply list_eq. intros k.
  destruct (found !! k) as [v|] eqn:E.
  - rewrite (Hfront k v E). by rewrite lookup_app_l_Some with (x := v).
  - apply lookup_ge_None in E.
    rewrite lookup_app_r by done. rewrite lookup_drop.
    rewrite Hback by done. f_equal. lia.
Qed.

Lemma read_ports_app (l k : list event) :
  read_ports (l ++ k) = read_ports l ++ read_ports k.
Proof.
  induction l as [|e l IH]; [done|].
  destruct e as [| | ? [?|]|]; simpl; by rewrite IH.
Qed.

Section BatchFrame.

Variables count socktype family : Z.

Lemma open_all_reads (n : nat) :
  ∀ (i : Z) (fds : list Z) (w : world) r fds' w',
    open_all n i count socktype family fds w = (r, fds', w') →
    ∃ evs, trace w' = trace w ++ evs ∧ read_ports evs = [].
Proof.
  induction n as [|n IH]; intros i fds w r fds' w' Hrun; simpl in Hrun.
  { injection Hrun as <- <- <-. exists []. by rewrite app_nil_r. }
  destruct (i <? count).
  2: { injection Hrun as <- <- <-. exists []. by rewrite app_nil_r. }
  destruct (sys_socket family socktype w) as [fd w1] eqn:Hs.
  assert (trace w1 = trace w ++ [EvSocket family socktype fd]) as T1.
  { unfold sys_socket in Hs. destruct (kernel w (ticks w)); by injection Hs as <- <-. }
  destruct (array_get (array_set fds i fd) i <? 0).
  { injection Hrun as <- <- <-. simpl. rewrite T1. by eexists. }
  destruct (setup_addr family 0) as [sa salen].
  destruct (sys_bind (array_get (array_set fds i fd) i) sa salen w1) as [rc w2] eqn:Hb.
  assert (∃ a, trace w2
               = trace w1 ++ [EvBind (array_get (array_set fds i fd) i) sa a]) as [a T2].
  { unfold sys_bind in Hb.
    destruct (files w1 !! _) as [[|? ? ? ?]|]; [| |];
      try (injection Hb as <- <-; by eexists).
    destruct (kernel w1 (ticks w1)); injection Hb as <- <-; by eexists. }
  destruct (rc <? 0).
  { injection Hrun as <- <- <-. simpl. rewrite T2, T1, <- app_assoc. by eexists. }
  apply IH in Hrun as (evs & T3 & Hr).
  rewrite T3, T2, T1, <- !app_assoc. eexists. split; [done|].
  simpl. done.
Qed.

Lemma close_all_reads (n : nat) :
  ∀ (j i : Z) (fds : list Z) (w : world),
    ∃ evs, trace (close_all n j i fds w) = trace w ++ evs ∧ read_ports evs = [].
Proof.
  induction n as [|n IH]; intros j i fds w; simpl.
  { exists []. by rewrite app_nil_r. }
  destruct (j <? i).
  2: { exists []. by rewrite app_nil_r. }
  destruct (IH (j + 1) i fds (sys_close (array_get fds j) w)) as (evs & T & Hr).
  simpl in T. rewrite T, <- app_assoc. eexists. split; [done|]. done.
Qed.

Lemma read_all_frame (n : nat) :
  ∀ (i : Z) (fds ports : list Z) (w : world) ok ports' w',
    0 ≤ i → (Z.to_nat i + n ≤ length ports)%nat →
    read_all n i count family fds ports w = (ok, ports', w') →
    ∃ evs, trace w' = trace w ++ evs ∧
      length ports' = length ports ∧
      (length (read_ports evs) ≤ n)%nat ∧
      (∀ k, (k < Z.to_nat i ∨ Z.to_nat i + length (read_ports evs) ≤ k)%nat →
         ports' !! k = ports !! k) ∧
      (∀ k v, read_ports evs !! k = Some v →
         ports' !! (Z.to_nat i + k)%nat = Some v).
Proof.
  induction n as [|n IH]; intros i fds ports w ok ports' w' Hi Hlen Hrun;
    simpl in Hrun.
  { injection Hrun as <- <- <-. exists []. rewrite app_nil_r. simpl.
    repeat split; try done. }
  destruct (i <? count).
  2: { injection Hrun as <- <- <-. exists []. rewrite app_nil_r. simpl.
       repeat split; try done. lia. }
  destruct (sys_getsockname (array_get fds i) sockaddr_zero w) as [[rc sa] w1] eqn:Hg.
  unfold sys_getsockname in Hg.
  destruct (files w !! array_get fds i) as [[|f t a p]|] eqn:Hfile.
  - injection Hg as <- <- <-. simpl in Hrun. injection Hrun as <- <- <-.
    simpl. eexists. split; [done|]. simpl. repeat split; try done. lia.
  - destruct (kernel w (ticks w)) as [e|pk]; injection Hg as <- <- <-; simpl in Hrun.
    + injection Hrun as <- <- <-.
      simpl. eexists. split; [done|]. simpl. repeat split; try done. lia.
    + rewrite read_port_htons in Hrun.
      apply IH in Hrun; [|lia|rewrite array_set_length; lia].
      destruct Hrun as (evs & T & Hl & Hn & Hout & Hin). simpl in T.
      exists (EvGetsockname (array_get fds i) (Some p) :: evs).
      split; [by rewrite T, <- app_assoc|].
      rewrite array_set_length in Hl. simpl.
      split; [done|]. split; [lia|].
      split.
      * intros k Hk. rewrite Hout by lia.
        unfold array_set. apply list_lookup_insert_ne. lia.
      * intros [|k] v Hv; simpl in Hv.
        -- injection Hv as <-. rewrite Nat.add_0_r, Hout by lia.
           unfold array_set. apply list_lookup_insert_eq. lia.
        -- replace (Z.to_nat i + S k)%nat with (Z.to_nat (i + 1) + k)%nat by lia.
           by apply Hin.
  - injection Hg as <- <- <-. simpl in Hrun. injection Hrun as <- <- <-.
    simpl. eexists. split; [done|]. simpl. repeat split; try done. lia.
Qed.

End BatchFrame.

(** The array that [find_free_ports] hands back, from its trace. *)
Lemma find_free_ports_array (ports : list Z) (count socktype family : Z) (w : world) :
  (Z.to_nat count ≤ length ports)%nat →
  (find_free_ports ports count socktype family w).1.2
  = read_ports (events_since w (find_free_ports ports count socktype family w).2)
    ++ drop (length (read_ports
                       (events_since w (find_free_ports ports count socktype family w).2)))
            ports.
Proof.
  intros Hports. unfold find_free_ports.
  destruct (open_all (Z.to_nat count) 0 count socktype family fresh_array w)
    as [[[j|] fds1] w1] eqn:Hopen;
    apply open_all_reads in Hopen as (evo & To & Ro).
  - simpl.
    destruct (close_all_reads (Z.to_nat j) 0 j fds1 w1) as (evc & Tc & Rc).
    rewrite To, <- app_assoc in Tc.
    rewrite (events_since_app _ _ _ Tc), read_ports_app, Ro, Rc. simpl.
    by rewrite drop_0.
  - destruct (read_all (Z.to_nat count) 0 count family fds1 ports w1)
      as [[ok ports1] w2] eqn:Hread.
    apply read_all_frame in Hread; [|lia|simpl; lia].
    destruct Hread as (evr & Tr & Hl & Hn & Hout & Hin).
    destruct (close_all_reads (Z.to_nat count) 0 count fds1 w2) as (evc & Tc & Rc).
    rewrite Tr, To, <- !app_assoc in Tc.
    assert ((if ok then (0, ports1, close_all (Z.to_nat count) 0 count fds1 w2)
             else (-1, ports1, close_all (Z.to_nat count) 0 count fds1 w2)).1.2
            = ports1) as -> by (by destruct ok).
    assert ((if ok then (0, ports1, close_all (Z.to_nat count) 0 count fds1 w2)
             else (-1, ports1, close_all (Z.to_nat count) 0 count fds1 w2)).2
            = close_all (Z.to_nat count) 0 count fds1 w2) as -> by (by destruct ok).
    rewrite (events_since_app _ _ _ Tc), !read_ports_app, Ro, Rc, app_nil_r. simpl.
    apply array_frame; [done| |].
    + intros k v Hv. by apply (Hin k v).
    + intros k Hk. apply Hout. simpl. lia.
Qed.



Lemma scan_back (count lo range start socktype family : Z) (n : nat) :
  ∀ (i found : Z) (ports : list Z) (w : world) r found' ports' w',
    0 ≤ found →
    scan n i found count lo range start socktype family ports w
    = (r, found', ports', w') →
    found ≤ found' ∧
    ∀ k, (Z.to_nat found' ≤ k)%nat → ports' !! k = ports !! k.
Proof.
  induction n as [|n IH]; intros i found ports w r found' ports' w' Hf Hrun;
    simpl in Hrun.
  { by injection Hrun as <- <- <- <-. }
  destruct ((i <? range) && (found <? count)).
  2: { by injection Hrun as <- <- <- <-. }
  destruct (sys_socket family socktype w) as [fd w1].
  destruct (fd <? 0).
  { by injection Hrun as <- <- <- <-. }
  destruct (setup_addr family (candidate lo range start i)) as [sa salen].
  destruct (sys_bind fd sa salen w1) as [rc w2].
  destruct (rc =? 0).
  - apply IH in Hrun as [Hle Hback]; [|lia].
    split; [lia|]. intros k Hk. rewrite Hback by done.
    unfold array_set. apply list_lookup_insert_ne. lia.
  - by apply IH in Hrun.
Qed.

(** The array that [find_free_ports_range] hands back, from its trace. *)
Lemma find_free_ports_range_array (ports : list Z)
    (count lo hi socktype family : Z) (w : world) :
  1 ≤ lo ≤ hi ∧ hi ≤ 65535 → 0 ≤ count → (Z.to_nat count ≤ length ports)%nat →
  (find_free_ports_range ports count lo hi socktype family w).1.2
  = bound_ports
      (events_since w (find_free_ports_range ports count lo hi socktype family w).2)
    ++ drop (length (bound_ports
                       (events_since w
                          (find_free_ports_range ports count lo hi socktype family w).2)))
            ports.
Proof.
  intros Hv Hc Hports. unfold find_free_ports_range.
  rewrite range_size_valid by done.
  unfold rand.
  set (r := entropy w (draws w) mod (RAND_MAX + 1)).
  pose proof (start_offset_valid lo hi r Hv) as Hstart.
  set (start := to_int (to_unsigned (to_unsigned lo
                 + to_unsigned r mod to_unsigned (hi - lo + 1)))) in *.
  set (w0 := World _ _ _ _ _ _ _ _ _).
  destruct (scan (Z.to_nat (hi - lo + 1)) 0 0 count lo (hi - lo + 1) start
                 socktype family ports w0) as [[[res found] ports1] w1] eqn:Hscan.
  pose proof (scan_back _ _ _ _ _ _ _ _ _ _ _ _ _ _ _ (Z.le_refl 0) Hscan)
    as [_ Hback].
  apply scan_spec in Hscan; [|lia..|done].
  destruct Hscan as (probes & Htr & _ & _ & _ & Hl & Hf & _ & Hcells & _).
  simpl in Htr.
  assert ((match res with
           | Some rc => (rc, ports1, w1)
           | None => (if found =? count then 0 else -1, ports1, w1)
           end).1.2 = ports1) as -> by (by destruct res).
  assert ((match res with
           | Some rc => (rc, ports1, w1)
           | None => (if found =? count then 0 else -1, ports1, w1)
           end).2 = w1) as -> by (by destruct res).
  rewrite (events_since_app _ _ _ Htr).
  assert (bound_ports
            (scan_events family socktype lo (hi - lo + 1) start 0 probes
             ++ (if res is Some _ then [EvSocket family socktype (-1)] else []))
          = hits lo (hi - lo + 1) start 0 probes) as ->.
  { rewrite bound_ports_app, bound_ports_scan_events.
    destruct res; simpl; by rewrite app_nil_r. }
  apply array_frame; [done| |].
  - intros k v Hv'. by apply (Hcells k v).
  - intros k Hk. apply Hback. lia.
Qed.

(** The range-constrained search writes to the caller's array the ports it
    bound, in the order it found them from the first cell, and nothing else,
    on success and on failure alike. *)
Theorem range_writes_only_found_ports (ports : list Z)
    (count lo hi socktype family : Z) (w : world) :
  1 ≤ lo ≤ hi ∧ hi ≤ 65535 → 0 ≤ count → (Z.to_nat count ≤ length ports)%nat →
  let r := find_free_ports_range ports count lo hi socktype family w in
  r.1.2 = bound_ports (events_since w r.2)
          ++ drop (length (bound_ports (events_since w r.2))) ports.
Proof. intros Hv Hc Hports. by apply find_free_ports_range_array. Qed.

Lemma range_writes_witness :
  let w := boot (grants_first 3) (fixed_draw 7) in
  (find_free_ports_range [7; 7; 7; 7] 3 8000 8004 SOCK_STREAM AF_INET w).1.2
  = [8002; 7; 7; 7].
Proof.
  intros w.
  pose proof (range_writes_only_found_ports [7; 7; 7; 7] 3 8000 8004
                SOCK_STREAM AF_INET w) as H.
  simpl in H. rewrite H; [|lia|lia|lia].
  vm_compute. reflexivity.
Defined.

(** ** Counts that [main] never passes *)

(** With a count of 0 both routines succeed without a system call. With a
    negative count the unconstrained routine still returns 0, while the
    range-constrained search, on an interval [1 <= lo <= hi <= 65535],
    returns -1, again without a system call; the search has drawn its
    starting offset by then. *)
Theorem nonpositive_count_makes_no_call (ports : list Z)
    (count lo hi socktype family : Z) (w : world) :
  count ≤ 0 →
  find_free_ports ports count socktype family w = (0, ports, w) ∧
  (1 ≤ lo ≤ hi ∧ hi ≤ 65535 →
   find_free_ports_range ports count lo hi socktype family w
   = ((if count =? 0 then 0 else -1), ports, (rand w).2)).
Proof.
  intros Hc. split.
  - unfold find_free_ports.
    replace (Z.to_nat count) with 0%nat by lia. done.
  - intros Hv. unfold find_free_ports_range.
    destruct (rand w) as [r w0] eqn:Hr. simpl.
    destruct (Z.to_nat (to_int (to_int (hi - lo) + 1))) as [|n]; simpl.
    + destruct count; try done; lia.
    + assert ((0 <? count) = false) as -> by lia.
      rewrite andb_false_r. destruct count; try done; lia.
Qed.

Lemma nonpositive_count_witness :
  let w := boot exhausted (fixed_draw 7) in
  find_free_ports [7; 7] (-1) SOCK_STREAM AF_INET w = (0, [7; 7], w) ∧
  find_free_ports_range [7; 7] (-1) 8000 8004 SOCK_STREAM AF_INET w
  = (-1, [7; 7], (rand w).2).
Proof.
  intros w.
  destruct (nonpositive_count_makes_no_call [7; 7] (-1) 8000 8004
              SOCK_STREAM AF_INET w) as [Hbatch Hrange].
  - lia.
  - split; [exact Hbatch|]. apply Hrange. lia.
Defined.

(** ** The random starting offset *)

Lemma scan_keeps_sources (count lo range start socktype family : Z) (n : nat) :
  ∀ (i found : Z) (ports : list Z) (w : world) r found' ports' w',
    scan n i found count lo range start socktype family ports w
    = (r, found', ports', w') →
    kernel w' = kernel w ∧ entropy w' = entropy w ∧ draws w' = draws w.
Proof.
  induction n as [|n IH]; intros i found ports w r found' ports' w' Hrun;
    simpl in Hrun.
  { by injection Hrun as <- <- <- <-. }
  destruct ((i <? range) && (found <? count)).
  2: { by injection Hrun as <- <- <- <-. }
  destruct (sys_socket family socktype w) as [fd w1] eqn:Hs.
  assert (kernel w1 = kernel w ∧ entropy w1 = entropy w ∧ draws w1 = draws w)
    as (K1 & E1 & D1).
  { unfold sys_socket in Hs. destruct (kernel w (ticks w)); by injection Hs as <- <-. }
  destruct (fd <? 0).
  { by injection Hrun as <- <- <- <-. }
  destruct (setup_addr family (candidate lo range start i)) as [sa salen].
  destruct (sys_bind fd sa salen w1) as [rc w2] eqn:Hb.
  assert (kernel w2 = kernel w1 ∧ entropy w2 = entropy w1 ∧ draws w2 = draws w1)
    as (K2 & E2 & D2).
  { unfold sys_bind in Hb.
    destruct (files w1 !! fd) as [[|? ? ? ?]|];
      try (by injection Hb as <- <-).
    destruct (kernel w1 (ticks w1)); by injection Hb as <- <-. }
  destruct (rc =? 0); apply IH in Hrun as (K3 & E3 & D3); simpl in *;
    repeat split; congruence.
Qed.

Lemma scan_probed (lo hi start count socktype family : Z) (ports : list Z)
    (w : world) r found ports' w' :
  1 ≤ lo ≤ hi ∧ hi ≤ 65535 → lo ≤ start ≤ hi →
  0 ≤ count → (Z.to_nat count ≤ length ports)%nat →
  scan (Z.to_nat (hi - lo + 1)) 0 0 count lo (hi - lo + 1) start
       socktype family ports w = (r, found, ports', w') →
  probed (events_since w w')
  = port_i lo hi start <$> seqZ 0 (Z.of_nat (length (probed (events_since w w')))).
Proof.
  intros Hv Hs Hc Hports Hrun.
  apply scan_spec in Hrun; try (done || lia).
  destruct Hrun as (probes & Htr & _ & _ & _ & _ & _ & _ & _ & _ & _ & Hr).
  rewrite (events_since_app _ _ _ Htr).
  assert (Z.of_nat (length probes) ≤ hi - lo + 1) as Hlen
    by (destruct r as [?|]; lia).
  assert (probed (scan_events family socktype lo (hi - lo + 1) start 0 probes
                  ++ (if r is Some _ then [EvSocket family socktype (-1)] else []))
          = port_i lo hi start <$> seqZ 0 (Z.of_nat (length probes))) as Hprobed.
  { rewrite probed_app, probed_scan_events by (done || lia).
    rewrite candidates_port_i by (done || lia).
    destruct r; simpl; by rewrite app_nil_r. }
  rewrite Hprobed at 1. by rewrite Hprobed, length_fmap, length_seqZ, Nat2Z.id.
Qed.

(** The range-constrained search draws exactly one pseudo-random number,
    starts its scan at [lo + rand() % (hi - lo + 1)], a port of [lo, hi], and
    probes from there in the cyclic order of the interval. *)
Theorem range_scan_starts_at_drawn_offset (ports : list Z)
    (count lo hi socktype family : Z) (w : world) :
  1 ≤ lo ≤ hi ∧ hi ≤ 65535 → 0 ≤ count → (Z.to_nat count ≤ length ports)%nat →
  let r := find_free_ports_range ports count lo hi socktype family w in
  let start := lo + (rand w).1 mod (hi - lo + 1) in
  lo ≤ start ≤ hi ∧
  draws r.2 = S (draws w) ∧
  probed (events_since w r.2)
  = port_i lo hi start <$> seqZ 0 (Z.of_nat (length (probed (events_since w r.2)))).
Proof.
  intros Hv Hc Hports. unfold find_free_ports_range.
  rewrite range_size_valid by done.
  unfold rand. simpl.
  set (r := entropy w (draws w) mod (RAND_MAX + 1)).
  assert (0 ≤ r < RAND_MAX + 1) as Hr by (apply Z.mod_pos_bound; unfold RAND_MAX; lia).
  pose proof (Z.mod_pos_bound r (hi - lo + 1)) as Hm.
  assert (to_int (to_unsigned (to_unsigned lo
            + to_unsigned r mod to_unsigned (hi - lo + 1)))
          = lo + r mod (hi - lo + 1)) as ->.
  { unfold RAND_MAX in Hr.
    rewrite (to_unsigned_small lo), (to_unsigned_small r),
      (to_unsigned_small (hi - lo + 1)) by lia.
    rewrite to_unsigned_small by lia. apply to_int_small. lia. }
  set (start := lo + r mod (hi - lo + 1)) in *.
  set (w0 := World _ _ _ _ _ _ _ _ _).
  destruct (scan (Z.to_nat (hi - lo + 1)) 0 0 count lo (hi - lo + 1) start
                 socktype family ports w0) as [[[res found] ports1] w1] eqn:Hscan.
  pose proof (scan_keeps_sources _ _ _ _ _ _ _ _ _ _ _ _ _ _ _ Hscan) as (_ & _ & Hd).
  assert ((match res with
           | Some rc => (rc, ports1, w1)
           | None => (if found =? count then 0 else -1, ports1, w1)
           end).2 = w1) as -> by (by destruct res).
  split; [lia|]. split; [done|].
  assert (events_since w w1 = events_since w0 w1) as -> by done.
  apply (scan_probed lo hi start count socktype family ports w0 res found ports1 w1);
    (done || lia).
Qed.

Lemma range_scan_start_witness :
  let w := boot generous (fixed_draw 7) in
  let r := find_free_ports_range fresh_array 2 8000 8004 SOCK_STREAM AF_INET w in
  8000 ≤ 8000 + (rand w).1 mod (8004 - 8000 + 1) ≤ 8004 ∧
  draws r.2 = 1%nat ∧
  probed (events_since w r.2) = [8002; 8003].
Proof.
  intros w r.
  destruct (range_scan_starts_at_drawn_offset fresh_array 2 8000 8004
              SOCK_STREAM AF_INET w) as (Hs & Hd & Hp).
  - lia.
  - lia.
  - vm_compute. lia.
  - split; [exact Hs|]. split; [exact Hd|].
    vm_compute. reflexivity.
Defined.

(** ** When the kernel grants every call *)

Section Granted.

Variables count socktype family : Z.

Lemma open_all_granted (n : nat) :
  ∀ (i : Z) (fds : list Z) (w : world) r fds' w',
    grants_all (kernel w) →
    0 ≤ i → (Z.to_nat i + n ≤ length fds)%nat →
    open_all n i count socktype family fds w = (r, fds', w') →
    r = None ∧ kernel w' = kernel w.
Proof.
  induction n as [|n IH]; intros i fds w r fds' w' Hg Hi Hlen Hrun; simpl in Hrun.
  { by injection Hrun as <- <- <-. }
  destruct (i <? count).
  2: { by injection Hrun as <- <- <-. }
  unfold sys_socket in Hrun.
  destruct (Hg (ticks w)) as [pk K1]. rewrite K1 in Hrun.
  pose proof (lowest_free_nonneg (files w)) as Hfd.
  rewrite !array_get_set in Hrun by lia.
  destruct (lowest_free (files w) <? 0) eqn:Hneg; [lia|].
  destruct (setup_addr family 0) as [sa salen].
  unfold sys_bind in Hrun. simpl in Hrun.
  rewrite lookup_insert_eq in Hrun.
  destruct (Hg (S (ticks w))) as [pick K2]. rewrite K2 in Hrun. simpl in Hrun.
  apply IH in Hrun; [done|done|lia|rewrite array_set_length; lia].
Qed.

Lemma read_all_granted (n : nat) :
  ∀ (i : Z) (fds ports : list Z) (w : world) ok ports' w' (socks : list (Z * Z)),
    grants_all (kernel w) →
    0 ≤ i → length socks = n →
    (∀ k s, socks !! k = Some s →
       fds !! (Z.to_nat i + k)%nat = Some s.1 ∧
       ∃ f t a, files w !! s.1 = Some (Socket f t a s.2)) →
    read_all n i count family fds ports w = (ok, ports', w') →
    ok = true.
Proof.
  induction n as [|n IH];
    intros i fds ports w ok ports' w' socks Hg Hi Hlen Hsocks Hrun; simpl in Hrun.
  { by injection Hrun as <- <- <-. }
  destruct (i <? count).
  2: { by injection Hrun as <- <- <-. }
  destruct socks as [|s0 socks]; [done|].
  destruct (Hsocks 0%nat s0 eq_refl) as (Hcell & f & t & a & Hfile).
  rewrite Nat.add_0_r in Hcell.
  rewrite (array_get_lookup _ _ _ Hcell) in Hrun.
  unfold sys_getsockname in Hrun. rewrite Hfile in Hrun.
  destruct (Hg (ticks w)) as [pk K]. rewrite K in Hrun. simpl in Hrun.
  apply (IH _ _ _ _ _ _ _ socks) in Hrun; [done|done|lia|simpl in Hlen; lia|].
  intros k s Hs. destruct (Hsocks (S k) s Hs) as (Hc & Hf).
  split; [|done].
  replace (Z.to_nat (i + 1) + k)%nat with (Z.to_nat i + S k)%nat by lia.
  done.
Qed.

End Granted.

Lemma find_free_ports_granted (ports : list Z)
    (count socktype family : Z) (w : world) :
  0 ≤ count ≤ MAX_PORTS →
  grants_all (kernel w) →
  (find_free_ports ports count socktype family w).1.1 = 0.
Proof.
  intros Hc Hg. unfold find_free_ports.
  destruct (open_all (Z.to_nat count) 0 count socktype family fresh_array w)
    as [[r fds1] w1] eqn:Hopen.
  pose proof Hopen as Hopen'.
  apply open_all_granted in Hopen' as [-> K1];
    [|done|lia|rewrite fresh_array_length; unfold MAX_PORTS in *; lia].
  apply open_all_spec in Hopen;
    [|lia|rewrite fresh_array_length; unfold MAX_PORTS in *; lia].
  destruct Hopen as (opened & _ & _ & Hcells & _ & Hnd & _ & _ & Hlen & _ & Hfs & _).
  destruct (read_all (Z.to_nat count) 0 count family fds1 ports w1)
    as [[ok ports1] w2] eqn:Hread.
  apply (read_all_granted _ _ _ _ _ _ _ _ _ _ opened) in Hread as ->; try done.
  - by rewrite K1.
  - lia.
  - intros k s Hs. split; [by apply Hcells|].
    eexists _, _, _. rewrite Hfs. by apply (add_socks_lookup _ _ _ _ k).
Qed.


Lemma generous_grants_all : grants_all generous.
Proof. intros n. by eexists. Qed.


Lemma scan_granted (count lo range start socktype family : Z) (n : nat) :
  ∀ (i found : Z) (ports : list Z) (w : world) r found' ports' w',
    grants_all (kernel w) →
    0 ≤ i → i + Z.of_nat n ≤ range → 0 ≤ found →
    (Z.to_nat count ≤ length ports)%nat →
    scan n i found count lo range start socktype family ports w
    = (r, found', ports', w') →
    r = None ∧
    found' = found + Z.min (Z.of_nat n) (Z.max 0 (count - found)) ∧
    (∀ k, (k < Z.to_nat found)%nat → ports' !! k = ports !! k) ∧
    (∀ k, 0 ≤ k < found' - found →
       ports' !! Z.to_nat (found + k) = Some (candidate lo range start (i + k))).
Proof.
  induction n as [|n IH];
    intros i found ports w r found' ports' w' Hg Hi Hn Hf Hports Hrun;
    simpl in Hrun.
  { injection Hrun as <- <- <- <-. repeat split; try done; lia. }
  destruct ((i <? range) && (found <? count)) eqn:Hcond.
  2: { injection Hrun as <- <- <- <-. repeat split; try done; lia. }
  apply andb_true_iff in Hcond as [Hir Hfc].
  unfold sys_socket in Hrun.
  destruct (Hg (ticks w)) as [pk K1]. rewrite K1 in Hrun.
  pose proof (lowest_free_nonneg (files w)) as Hfd.
  destruct (lowest_free (files w) <? 0) eqn:Hneg; [lia|].
  destruct (setup_addr family (candidate lo range start i)) as [sa salen].
  unfold sys_bind in Hrun. simpl in Hrun.
  rewrite lookup_insert_eq in Hrun.
  destruct (Hg (S (ticks w))) as [pick K2]. rewrite K2 in Hrun. simpl in Hrun.
  apply IH in Hrun; [|done|lia|lia|lia|by rewrite array_set_length].
  destruct Hrun as (-> & Hf' & Hbelow & Hcells).
  split; [done|]. split; [lia|].
  split.
  { intros k Hk. rewrite Hbelow by lia.
    unfold array_set. apply list_lookup_insert_ne. lia. }
  intros k Hk.
  destruct (decide (k = 0)) as [->|Hne].
  - rewrite Z.add_0_r, Z.add_0_r, Hbelow by lia.
    unfold array_set. apply list_lookup_insert_eq. lia.
  - specialize (Hcells (k - 1)).
    replace (found + 1 + (k - 1)) with (found + k) in Hcells by lia.
    replace (i + 1 + (k - 1)) with (i + k) in Hcells by lia.
    apply Hcells. lia.
Qed.

Lemma find_free_ports_range_granted (ports : list Z)
    (count lo hi socktype family : Z) (w : world) :
  1 ≤ lo ≤ hi ∧ hi ≤ 65535 → 0 ≤ count ≤ hi - lo + 1 →
  (Z.to_nat count ≤ length ports)%nat →
  grants_all (kernel w) →
  let r := find_free_ports_range ports count lo hi socktype family w in
  let start := lo + (rand w).1 mod (hi - lo + 1) in
  r.1.1 = 0 ∧
  take (Z.to_nat count) r.1.2 = port_i lo hi start <$> seqZ 0 count.
Proof.
  intros Hv Hc Hports Hg. unfold find_free_ports_range.
  rewrite range_size_valid by done.
  unfold rand. simpl.
  set (r := entropy w (draws w) mod (RAND_MAX + 1)).
  assert (0 ≤ r < RAND_MAX + 1) as Hr by (apply Z.mod_pos_bound; unfold RAND_MAX; lia).
  pose proof (Z.mod_pos_bound r (hi - lo + 1)) as Hm.
  assert (to_int (to_unsigned (to_unsigned lo
            + to_unsigned r mod to_unsigned (hi - lo + 1)))
          = lo + r mod (hi - lo + 1)) as ->.
  { unfold RAND_MAX in Hr.
    rewrite (to_unsigned_small lo), (to_unsigned_small r),
      (to_unsigned_small (hi - lo + 1)) by lia.
    rewrite to_unsigned_small by lia. apply to_int_small. lia. }
  set (start := lo + r mod (hi - lo + 1)) in *.
  set (w0 := World _ _ _ _ _ _ _ _ _).
  destruct (scan (Z.to_nat (hi - lo + 1)) 0 0 count lo (hi - lo + 1) start
                 socktype family ports w0) as [[[res found] ports1] w1] eqn:Hscan.
  apply scan_granted in Hscan; [|done|lia|lia|lia|done].
  destruct Hscan as (-> & Hfound & _ & Hcells).
  assert (found = count) as -> by lia.
  rewrite Z.eqb_refl. simpl. split; [done|].
  rewrite <- candidates_port_i by (done || lia).
  apply list_eq. intros k. rewrite list_lookup_fmap.
  destruct (decide (Z.of_nat k < count)) as [Hk|Hk].
  - rewrite lookup_take_lt by lia.
    rewrite lookup_seqZ_lt by done. simpl.
    specialize (Hcells (Z.of_nat k)).
    rewrite !Z.add_0_l, Nat2Z.id in Hcells. apply Hcells. lia.
  - rewrite lookup_take_ge by lia.
    by rewrite lookup_seqZ_ge by lia.
Qed.

(** When the kernel grants every call the range-constrained search succeeds
    and returns the first [count] candidates of its scan: the ports from the
    drawn offset on, in the cyclic order of the interval. *)
Theorem range_succeeds_when_granted (ports : list Z)
    (count lo hi socktype family : Z) (w : world) :
  1 ≤ lo ≤ hi ∧ hi ≤ 65535 → 0 ≤ count ≤ hi - lo + 1 →
  (Z.to_nat count ≤ length ports)%nat →
  grants_all (kernel w) →
  let r := find_free_ports_range ports count lo hi socktype family w in
  let start := lo + (rand w).1 mod (hi - lo + 1) in
  r.1.1 = 0 ∧
  take (Z.to_nat count) r.1.2 = port_i lo hi start <$> seqZ 0 count.
Proof. exact (find_free_ports_range_granted ports count lo hi socktype family w). Qed.

Lemma range_succeeds_witness :
  let w := boot generous (fixed_draw 9) in
  take (Z.to_nat 3)
       (find_free_ports_range fresh_array 3 8000 8004 SOCK_STREAM AF_INET w).1.2
  = [8004; 8000; 8001].
Proof.
  intros w.
  destruct (range_succeeds_when_granted fresh_array 3 8000 8004
              SOCK_STREAM AF_INET w) as [_ H].
  - lia.
  - lia.
  - vm_compute. lia.
  - exact generous_grants_all.
  - rewrite H. vm_compute. reflexivity.
Defined.

(** ** What the range-constrained search never does *)

(** The range-constrained search never asks for a port outside [lo, hi] and
    never asks for the same port twice. *)
Theorem range_probes_inside_once (ports : list Z)
    (count lo hi socktype family : Z) (w : world) :
  1 ≤ lo ≤ hi ∧ hi ≤ 65535 → 0 ≤ count → (Z.to_nat count ≤ length ports)%nat →
  let r := find_free_ports_range ports count lo hi socktype family w in
  Forall (λ p, lo ≤ p ≤ hi) (probed (events_since w r.2)) ∧
  NoDup (probed (events_since w r.2)).
Proof.
  intros Hv Hc Hports.
  destruct (find_free_ports_range ports count lo hi socktype family w)
    as [[rc ports'] w'] eqn:Hrun.
  simpl. apply find_free_ports_range_spec in Hrun; [|done..].
  destruct Hrun as (start & probes & evs & Hstart & Hshape & Htr & _ & _ & _ & _
                    & _ & _ & _ & Hlen).
  rewrite (events_since_app _ _ _ Htr).
  assert (probed evs
          = candidate lo (hi - lo + 1) start <$> seqZ 0 (Z.of_nat (length probes)))
    as ->.
  { destruct Hshape; rewrite ?probed_app, probed_scan_events by lia;
      simpl; by rewrite ?app_nil_r. }
  split.
  - apply Forall_forall. intros p Hp.
    apply list_elem_of_fmap in Hp as (i & -> & Hi).
    apply elem_of_seqZ in Hi.
    assert (lo ≤ candidate lo (hi - lo + 1) start i < lo + (hi - lo + 1))
      by (apply candidate_bounds; lia).
    lia.
  - apply candidates_NoDup; lia.
Qed.

Lemma range_probes_witness :
  let w := boot all_busy (fixed_draw 3) in
  NoDup (probed (events_since w
                   (find_free_ports_range fresh_array 2 8000 8004
                                          SOCK_STREAM AF_INET w).2)).
Proof.
  intros w.
  apply (range_probes_inside_once fresh_array 2 8000 8004 SOCK_STREAM AF_INET w).
  - lia.
  - lia.
  - vm_compute. lia.
Defined.

(** ** The whole program when the kernel grants every call *)

(** With options that the loop accepts and a count that fits the range, if
    the kernel grants every call [main] exits with status 0 after printing
    exactly [count] ports, and writes nothing to the standard error. *)
Theorem main_succeeds_when_granted (opts : list option_arg) (c : config) (w : world) :
  getopt_loop opts initial_config w = inr (c, w) →
  (cfg_use_range c ≠ 0 → cfg_count c ≤ cfg_range_hi c - cfg_range_lo c + 1) →
  grants_all (kernel w) →
  (main opts w).1 = 0 ∧
  stderr (main opts w).2 = stderr w ∧
  ∃ printed, stdout (main opts w).2 = stdout w ++ (Out_port <$> printed) ∧
    Z.of_nat (length printed) = cfg_count c.
Proof.
  intros Hloop Hfit Hg.
  destruct (main_cases opts w) as [(code & w' & Hloop' & _)|(c' & Hloop' & Hv & Hrun)];
    [congruence|].
  assert (c' = c) as -> by congruence.
  destruct Hrun as [(Hu & Hgt & _)|(q & Hq & ->)]; [lia|].
  destruct (core_run c w q Hv Hq) as (Hout & _ & Hl & _).
  destruct Hv as [Hc Hr].
  assert (Z.to_nat (cfg_count c) ≤ length fresh_array)%nat as Hlen
    by (rewrite fresh_array_length; lia).
  assert (q.1.1 = 0 ∧ stderr q.2 = stderr w) as [Hrc Herr].
  { destruct Hq as [(Hu & Hsize & ->)|(Hu & ->)].
    - destruct Hr as [Hr|(_ & Hr)]; [lia|].
      destruct (find_free_ports_range_granted fresh_array (cfg_count c)
                  (cfg_range_lo c) (cfg_range_hi c) (cfg_socktype c)
                  (cfg_family c) w Hr ltac:(lia) Hlen Hg) as [Hrc _].
      split; [done|].
      destruct (find_free_ports_range _ _ _ _ _ _ _) as [[rc ports'] w'] eqn:Hrun.
      apply find_free_ports_range_spec in Hrun; [|done|lia|done].
      by destruct Hrun as (start & probes & evs & _ & _ & _ & _ & _ & Herr & _).
    - pose proof (find_free_ports_granted fresh_array (cfg_count c)
                    (cfg_socktype c) (cfg_family c) w ltac:(lia) Hg) as Hrc.
      split; [done|].
      destruct (find_free_ports _ _ _ _ _) as [[rc ports'] w'] eqn:Hrun.
      apply find_free_ports_spec in Hrun; [|lia|done].
      destruct Hrun as (opened & evs & _ & _ & _ & _ & _ & _ & _ & _ & Hok & _).
      simpl in Hrc. by apply Hok. }
  rewrite Hrc. simpl.
  pose proof (print_ports_spec (Z.to_nat (cfg_count c)) 0 (cfg_count c) q.1.2 q.2)
    as Hprint.
  destruct Hprint as (Pout & _ & _ & Perr); [lia|lia|lia|].
  split; [done|]. split; [by rewrite Perr|].
  exists (take (Z.to_nat (cfg_count c)) q.1.2).
  split.
  - by rewrite Pout, Hout, drop_0, Z.sub_0_r.
  - rewrite length_take. lia.
Qed.

Lemma main_succeeds_witness :
  let w := boot generous (fixed_draw 9) in
  (main [Opt_n 3; Opt_r (Scan2 8000 8004)] w).1 = 0 ∧
  stdout (main [Opt_n 3; Opt_r (Scan2 8000 8004)] w).2
  = [Out_port 8004; Out_port 8000; Out_port 8001].
Proof.
  intros w.
  destruct (main_succeeds_when_granted [Opt_n 3; Opt_r (Scan2 8000 8004)]
              (Config 3 SOCK_STREAM AF_INET 8000 8004 1) w) as (H & _ & _).
  - reflexivity.
  - simpl. lia.
  - exact generous_grants_all.
  - split; [exact H|]. vm_compute. reflexivity.
Defined.

(** * Order of the calls, failure signals and partial results *)

Lemma failed_call_batch_ok (family socktype : Z) (opened : list (Z * Z)) :
  Forall (λ s : Z * Z, 0 ≤ s.1 ∧ 0 ≤ s.2 < 65536) opened →
  failed_call (flat_map (open_events family socktype) opened
               ++ map read_event opened ++ map close_event opened) = None.
Proof.
  intros Hrng.
  rewrite failed_call_opens, failed_call_reads by done.
  rewrite <- (app_nil_r (map close_event opened)).
  by rewrite failed_call_closes.
Qed.

(** C9: in the unconstrained batch acquisition every [getsockname] call is
    made after all [count] sockets have been bound. The routine returns 0 or
    -1, and 0 exactly when none of its calls failed, so always when the
    kernel grants every call; and when it returns 0 its calls are the [count]
    sockets opened and bound one after the other, then their ports read in
    the same order, then the sockets closed, and the i-th port returned is
    the port of the i-th socket opened. *)
Theorem batch_reads_after_binds_in_creation_order (ports : list Z)
    (count socktype family : Z) (w : world) :
  0 ≤ count ≤ MAX_PORTS → (Z.to_nat count ≤ length ports)%nat →
  let r := find_free_ports ports count socktype family w in
  let evs := events_since w r.2 in
  reads_follow_binds count 0 evs = true ∧
  (r.1.1 = 0 ∨ r.1.1 = -1) ∧
  (r.1.1 = 0 ↔ failed_call evs = None) ∧
  (grants_all (kernel w) → r.1.1 = 0) ∧
  (r.1.1 = 0 →
   ∃ opened : list (Z * Z),
     Z.of_nat (length opened) = count ∧
     evs = flat_map (open_events family socktype) opened
           ++ map read_event opened ++ map close_event opened ∧
     take (Z.to_nat count) r.1.2 = opened.*2).
Proof.
  intros Hc Hports r evs.
  assert (grants_all (kernel w) → r.1.1 = 0) as Hgranted
    by (by apply find_free_ports_granted).
  subst evs r.
  destruct (find_free_ports ports count socktype family w) as [[rc ports'] w'] eqn:Hrun.
  simpl in *. apply find_free_ports_calls in Hrun; [|done..].
  destruct Hrun as (opened & evs & Hshape & Htr & _ & _ & _ & _ & Hrng & _ & Hok & Hko).
  rewrite (events_since_app _ _ _ Htr).
  split; [by eapply reads_follow_binds_batch_run|].
  split; [destruct Hshape; by auto|].
  split.
  { split.
    - intros ->. inversion Hshape; subst. by apply failed_call_batch_ok.
    - intros Hnone.
      destruct Hshape as [opened| | |]; [done|..];
        destruct (Hko eq_refl) as (what & e & Hcall & _); congruence. }
  split; [done|].
  intros ->. destruct (Hok eq_refl) as [Htake _].
  exists opened. inversion Hshape as [opened' Hlen| | |]; subst. done.
Qed.

Lemma batch_reads_witness :
  let w := boot generous (fixed_draw 0) in
  let r := find_free_ports fresh_array 2 SOCK_STREAM AF_INET w in
  r.1.1 = 0 ∧
  failed_call (events_since w r.2) = None ∧
  reads_follow_binds 2 0 (events_since w r.2) = true ∧
  events_since w r.2
  = flat_map (open_events AF_INET SOCK_STREAM) [(3, 40001); (4, 40003)]
    ++ map read_event [(3, 40001); (4, 40003)]
    ++ map close_event [(3, 40001); (4, 40003)] ∧
  take 2 r.1.2 = [40001; 40003].
Proof.
  intros w r.
  destruct (batch_reads_after_binds_in_creation_order fresh_array 2
              SOCK_STREAM AF_INET w) as (Hreads & _ & Hcalls & Hgranted & _).
  - unfold MAX_PORTS. lia.
  - vm_compute. lia.
  - pose proof (Hgranted generous_grants_all) as Hrc.
    split; [exact Hrc|].
    split; [by apply Hcalls|].
    split; [exact Hreads|].
    split; vm_compute; reflexivity.
Defined.

Lemma scan_events_none_refused (family socktype lo range start i : Z)
    (probes : list (Z * bool)) :
  Forall (λ p : Z * bool, 0 ≤ p.1) probes →
  existsb socket_refused (scan_events family socktype lo range start i probes)
  = false.
Proof.
  intros Hfds.
  destruct (existsb socket_refused
              (scan_events family socktype lo range start i probes)) eqn:Hex; [|done].
  apply existsb_exists in Hex as (e & Hin & Hneg).
  destruct e as [f t fd| | |]; try done. simpl in Hneg.
  apply list_elem_of_In in Hin.
  apply scan_events_sockets in Hin; [lia|done].
Qed.

Lemma probed_scan_events_length (family socktype lo range start i : Z)
    (probes : list (Z * bool)) :
  length (probed (scan_events family socktype lo range start i probes))
  = length probes.
Proof.
  revert i. induction probes as [|[fd ok] probes IH]; intros i; [done|].
  simpl. by rewrite IH.
Qed.

(** C7, as the code has it: the failure signal of the core is the single
    value -1 whatever the cause. The range-constrained search returns 0 or
    -1, and -1 when a socket was refused; what its caller has in hand is the
    return value and the array of the ports found so far, with nothing
    written to the standard error, so an exhausted scan and a refused socket
    that found the same ports give the same signal. A failed [bind] is no
    failure of the search but a busy port: the search returns 0 exactly when
    [count] binds succeeded, and when no socket was refused it returns -1
    only after it has probed the whole interval. The unconstrained routine returns 0 when none of its calls
    failed, writing nothing, and otherwise -1 after one [perror] line with
    the label of the call that failed first. [main] reports a failure of
    either routine by the same last line and exit status 1; before that line
    the standard error has nothing in range mode and the [perror] line of the
    failed call otherwise. *)
Theorem failure_signal_uniform :
  (∀ (ports : list Z) (count lo hi socktype family : Z) (w : world),
     1 ≤ lo ≤ hi ∧ hi ≤ 65535 → 0 ≤ count → (Z.to_nat count ≤ length ports)%nat →
     let r := find_free_ports_range ports count lo hi socktype family w in
     let evs := events_since w r.2 in
     (r.1.1 = 0 ∨ r.1.1 = -1) ∧
     (r.1.1 = 0 ↔ Z.of_nat (length (bound_ports evs)) = count) ∧
     (cause_of evs = Os_error → r.1.1 = -1) ∧
     (cause_of evs = No_free_port → r.1.1 = -1 →
      Z.of_nat (length (probed evs)) = hi - lo + 1) ∧
     failure_signal w r
     = (r.1.1, bound_ports evs ++ drop (length (bound_ports evs)) ports, [])) ∧
  (∀ (ports : list Z) (count socktype family : Z) (w : world),
     0 ≤ count ≤ MAX_PORTS → (Z.to_nat count ≤ length ports)%nat →
     let r := find_free_ports ports count socktype family w in
     let evs := events_since w r.2 in
     (r.1.1 = 0 ∧ failed_call evs = None ∧ stderr r.2 = stderr w)
     ∨ (r.1.1 = -1 ∧
        ∃ what e, failed_call evs = Some what ∧
          what ∈ ["fp: socket"; "fp: bind"; "fp: getsockname"]%string ∧
          stderr r.2 = stderr w ++ [Err_perror what e])) ∧
  (∀ (opts : list option_arg) (w : world),
     let r := main opts w in
     events_since w r.2 ≠ [] →
     r.1 ≠ 0 →
     r.1 = 1 ∧
     ∃ (c : config) (diagnostics : list err_line),
       getopt_loop opts initial_config w = inr (c, w) ∧
       ((cfg_use_range c = 1 ∧ diagnostics = [])
        ∨ (cfg_use_range c = 0 ∧
           ∃ what e, failed_call (events_since w r.2) = Some what ∧
             diagnostics = [Err_perror what e])) ∧
       stderr r.2 = stderr w ++ diagnostics ++ [Err_no_free_port]).
Proof.
  split; [|split].
  - intros ports count lo hi socktype family w Hv Hc Hports r evs.
    assert (r.1.2 = bound_ports evs ++ drop (length (bound_ports evs)) ports)
      as Harray by (by apply find_free_ports_range_array).
    unfold failure_signal. rewrite <- Harray. clear Harray. subst evs r.
    destruct (find_free_ports_range ports count lo hi socktype family w)
      as [[rc ports'] w'] eqn:Hrun.
    simpl. apply find_free_ports_range_spec in Hrun; [|done..].
    destruct Hrun as (start & probes & evs & _ & Hshape & Htr & _ & _ & Herr & _
                      & _ & _ & Hfds & _).
    rewrite (events_since_app _ _ _ Htr).
    rewrite (bound_ports_range_run _ _ _ _ _ _ _ _ _ Hshape).
    assert (Forall (λ p : Z * bool, 0 ≤ p.1) probes) as Hfds'
      by (eapply Forall_impl; [exact Hfds|by intros p [_ Hp]]).
    split; [destruct Hshape; by auto|].
    split.
    { inversion Hshape as [? Hf|? ? Hf|? ? Hf]; subst; split; try done; lia. }
    split.
    { unfold cause_of. intros Hcause.
      inversion Hshape; subst; try done.
      by rewrite scan_events_none_refused in Hcause. }
    split.
    { unfold cause_of. intros Hcause Hrc.
      inversion Hshape as [? Hf|? Hn Hf|? Hn Hf]; subst; try done.
      - by rewrite probed_scan_events_length.
      - rewrite existsb_app in Hcause. simpl in Hcause.
        by rewrite orb_true_r in Hcause. }
    by rewrite Herr, drop_all.
  - intros ports count socktype family w Hc Hports r evs. subst evs r.
    destruct (find_free_ports ports count socktype family w) as [[rc ports'] w'] eqn:Hrun.
    simpl. apply find_free_ports_calls in Hrun; [|done..].
    destruct Hrun as (opened & evs & Hshape & Htr & _ & _ & _ & _ & Hrng & _ & Hok & Hko).
    rewrite (events_since_app _ _ _ Htr).
    destruct Hshape; [left|right; split; [done|by apply Hko]..].
    split; [done|]. split; [by apply failed_call_batch_ok|by apply Hok].
  - intros opts w r Hev Hcode. subst r.
    destruct (main_cases opts w) as [(code & w' & Hloop & Hmain)|(c & Hloop & Hv & Hrun)].
    { rewrite Hmain in Hev. simpl in Hev.
      apply getopt_loop_return in Hloop as (Htr & _).
      by rewrite events_since_nil in Hev. }
    destruct Hrun as [(_ & _ & Hmain)|(q & Hq & Hmain)].
    { rewrite Hmain in Hev. simpl in Hev. by rewrite events_since_nil in Hev. }
    rewrite Hmain in Hcode |- *. clear Hev Hmain.
    destruct (q.1.1 <? 0) eqn:Hrc; [|done].
    simpl. split; [done|].
    exists c.
    destruct Hv as [Hc Hr].
    assert (Z.to_nat (cfg_count c) ≤ length fresh_array)%nat as Hlen
      by (rewrite fresh_array_length; lia).
    destruct Hq as [(Hu & Hsize & ->)|(Hu & ->)].
    + destruct Hr as [Hr|(_ & Hr)]; [lia|].
      destruct (find_free_ports_range _ _ _ _ _ _ _) as [[rc ports'] w'] eqn:Hrun.
      apply find_free_ports_range_spec in Hrun; [|done|lia|done].
      destruct Hrun as (_ & _ & _ & _ & _ & _ & _ & _ & Herr & _).
      exists []. split; [done|]. split; [by left|]. simpl. by rewrite Herr.
    + destruct (find_free_ports _ _ _ _ _) as [[rc ports'] w'] eqn:Hrun.
      apply find_free_ports_calls in Hrun; [|lia|done].
      destruct Hrun as (opened & evs & Hshape & Htr & _ & _ & _ & _ & _ & _ & Hok & Hko).
      simpl in Hrc.
      assert (rc = -1) as Hfail by (destruct Hshape; [done|done..]).
      destruct (Hko Hfail) as (what & e & Hcall & _ & Herr).
      exists [Err_perror what e]. split; [done|].
      split.
      * right. split; [done|]. exists what, e. split; [|done].
        change (failed_call (events_since w w') = Some what).
        by rewrite (events_since_app _ _ _ Htr).
      * simpl. by rewrite Herr, <- app_assoc.
Qed.

Lemma failure_signal_uniform_witness :
  let range_args w :=
    find_free_ports_range [7; 7] 1 8000 8001 SOCK_STREAM AF_INET w in
  let w1 := boot first_busy (fixed_draw 0) in
  let w2 := boot all_busy (fixed_draw 0) in
  let w3 := boot exhausted (fixed_draw 0) in
  (failed_call (events_since w1 (range_args w1).2) = Some "fp: bind"%string ∧
   failure_signal w1 (range_args w1) = (0, [8001; 7], [])) ∧
  failure_signal w2 (range_args w2) = (-1, [7; 7], []) ∧
  failure_signal w3 (range_args w3) = (-1, [7; 7], []) ∧
  ∃ e, stderr (find_free_ports [7; 7] 2 SOCK_STREAM AF_INET w3).2
       = [Err_perror "fp: socket" e].
Proof.
  intros range_args w1 w2 w3.
  destruct failure_signal_uniform as (Hrange & Hbatch & _).
  split; [|split; [|split]].
  - split; [vm_compute; reflexivity|].
    destruct (Hrange [7; 7] 1 8000 8001 SOCK_STREAM AF_INET w1)
      as (_ & _ & _ & _ & Hsignal); [lia|lia|simpl; lia|].
    unfold range_args. rewrite Hsignal. vm_compute. reflexivity.
  - destruct (Hrange [7; 7] 1 8000 8001 SOCK_STREAM AF_INET w2)
      as (_ & _ & _ & _ & Hsignal); [lia|lia|simpl; lia|].
    unfold range_args. rewrite Hsignal. vm_compute. reflexivity.
  - destruct (Hrange [7; 7] 1 8000 8001 SOCK_STREAM AF_INET w3)
      as (_ & _ & _ & _ & Hsignal); [lia|lia|simpl; lia|].
    unfold range_args. rewrite Hsignal. vm_compute. reflexivity.
  - destruct (Hbatch [7; 7] 2 SOCK_STREAM AF_INET w3)
      as [(Hrc & _)|(_ & what & e & Hcall & _ & Herr)].
    + unfold MAX_PORTS. lia.
    + simpl. lia.
    + vm_compute in Hrc. discriminate Hrc.
    + vm_compute in Hcall. injection Hcall as <-.
      exists e. exact Herr.
Defined.

(** C3 as stated fails: a range-constrained search that scans its whole
    interval and binds one port of the two it was asked for returns -1 and
    leaves that port in the first cell of the caller's array. *)
Lemma failed_search_leaves_found_ports : ¬ failure_delivers_no_found_port.
Proof.
  intros Hclaim.
  pose proof (Hclaim fresh_array 2 8000 8001 SOCK_STREAM AF_INET
                (boot (grants_first 3) (fixed_draw 7))) as H.
  simpl in H.
  specialize (H ltac:(lia) ltac:(lia) ltac:(vm_compute; lia)
                ltac:(vm_compute; discriminate) ltac:(vm_compute; reflexivity) 8001).
  assert (8001 ∈ fresh_array) as Hin.
  { apply H.
    - vm_compute. apply list_elem_of_here.
    - vm_compute. apply list_elem_of_here. }
  unfold fresh_array in Hin. apply elem_of_replicate in Hin as [Heq _].
  discriminate Heq.
Qed.

(** C3, as the code has it: a partial result is never reported as a success.
    Each routine returns 0 with exactly [count] ports bound and stored in the
    first [count] cells of the caller's array, or -1; the range-constrained
    search returns -1 whenever it bound fewer than [count] ports. A failure
    does not clear the array: after the range-constrained search it holds
    the ports that were bound, in its first cells, and after the
    unconstrained routine the ports that were read, the other cells being as
    the caller passed them. [main] either exits with status 1 and prints
    nothing on the standard output, or prints the version or the usage
    without any system call, or prints exactly [count] ports, those its binds
    obtained. *)
Theorem partial_result_reported_as_failure :
  (∀ (ports : list Z) (count socktype family : Z) (w : world),
     0 ≤ count ≤ MAX_PORTS → (Z.to_nat count ≤ length ports)%nat →
     let r := find_free_ports ports count socktype family w in
     let evs := events_since w r.2 in
     ((r.1.1 = 0 ∧
       Z.of_nat (length (bound_ports evs)) = count ∧
       take (Z.to_nat count) r.1.2 = bound_ports evs)
      ∨ r.1.1 = -1) ∧
     r.1.2 = read_ports evs ++ drop (length (read_ports evs)) ports) ∧
  (∀ (ports : list Z) (count lo hi socktype family : Z) (w : world),
     1 ≤ lo ≤ hi ∧ hi ≤ 65535 → 0 ≤ count → (Z.to_nat count ≤ length ports)%nat →
     let r := find_free_ports_range ports count lo hi socktype family w in
     let evs := events_since w r.2 in
     ((r.1.1 = 0 ∧
       Z.of_nat (length (bound_ports evs)) = count ∧
       take (Z.to_nat count) r.1.2 = bound_ports evs)
      ∨ (r.1.1 = -1 ∧ Z.of_nat (length (bound_ports evs)) < count)) ∧
     r.1.2 = bound_ports evs ++ drop (length (bound_ports evs)) ports) ∧
  (∀ (opts : list option_arg) (w : world),
     let r := main opts w in
     (r.1 = 1 ∧ stdout r.2 = stdout w)
     ∨ (r.1 = 0 ∧ events_since w r.2 = [] ∧
        (stdout r.2 = stdout w ++ [Out_version]
         ∨ stdout r.2 = stdout w ++ [Out_usage]))
     ∨ (r.1 = 0 ∧
        ∃ c, getopt_loop opts initial_config w = inr (c, w) ∧
          Z.of_nat (length (bound_ports (events_since w r.2))) = cfg_count c ∧
          stdout r.2
          = stdout w ++ (Out_port <$> bound_ports (events_since w r.2)))).
Proof.
  split; [|split].
  - intros ports count socktype family w Hc Hports r evs.
    split; [by apply find_free_ports_result|by apply find_free_ports_array].
  - intros ports count lo hi socktype family w Hv Hc Hports r evs.
    split; [by apply find_free_ports_range_result
           |by apply find_free_ports_range_array].
  - exact main_result.
Qed.

Lemma partial_result_witness :
  let w := boot (grants_first 3) (fixed_draw 7) in
  let r := find_free_ports_range [7; 7; 7] 2 8000 8001 SOCK_STREAM AF_INET w in
  r.1.1 = -1 ∧ r.1.2 = [8001; 7; 7] ∧
  stdout (main [Opt_n 2; Opt_r (Scan2 8000 8001)] w).2 = [].
Proof.
  intros w r.
  destruct partial_result_reported_as_failure as (_ & Hrange & Hmain).
  destruct (Hrange [7; 7; 7] 2 8000 8001 SOCK_STREAM AF_INET w)
    as [Hres Harray]; [lia|lia|simpl; lia|].
  split; [|split].
  - destruct Hres as [(_ & Hn & _)|[Hrc _]]; [|exact Hrc].
    vm_compute in Hn. discriminate Hn.
  - unfold r. rewrite Harray. vm_compute. reflexivity.
  - destruct (Hmain [Opt_n 2; Opt_r (Scan2 8000 8001)] w) as [[_ H]|[[H _]|[H _]]].
    + exact H.
    + vm_compute in H. discriminate H.
    + vm_compute in H. discriminate H.
Defined.
